(** * Swap bootstrapping of a zero curve: a shallow embedding of [main.cpp]

    The program stores a zero curve as a [std::map<double,double>] of
    (maturity, zero rate) pillars, bootstraps new pillars from par swap
    quotes and prices swaps on the finished curve.

    The curve class uses only [+ - * /] and [<] on [double].  It is embedded
    once, over a small arithmetic interface, and read in two ways:
    - over [R], the exact real arithmetic in which the financial identities
      are stated;
    - over [float], IEEE 754 binary64, the arithmetic the compiled program
      really runs, where the definitions evaluate with [vm_compute].

    The bootstrapper and the pricer also need [exp], [log] and [floor]; they
    are embedded over [R]. *)

From Stdlib Require Import Reals Lra Lia List Sorted Bool ZArith PrimFloat.
From Stdlib Require Import Permutation.
Import ListNotations.

(* Decimal literals of [double] denote the nearest binary64 value, as in C++. *)
Set Warnings "-inexact-float".

(** ** The arithmetic of [double] that the curve uses *)

Class Arith (A : Type) : Type := {
  nzero : A;
  nadd : A -> A -> A;
  nsub : A -> A -> A;
  nmul : A -> A -> A;
  ndiv : A -> A -> A;
  nltb : A -> A -> bool
}.

Declare Scope num_scope.
Delimit Scope num_scope with num.
Notation "x + y" := (nadd x y) : num_scope.
Notation "x - y" := (nsub x y) : num_scope.
Notation "x * y" := (nmul x y) : num_scope.
Notation "x / y" := (ndiv x y) : num_scope.
Notation "x <? y" := (nltb x y) : num_scope.

(** Exact real arithmetic. *)
Definition Rltb (x y : R) : bool := if Rlt_dec x y then true else false.

#[export] Instance R_arith : Arith R := {
  nzero := 0%R;
  nadd := Rplus;
  nsub := Rminus;
  nmul := Rmult;
  ndiv := Rdiv;
  nltb := Rltb
}.

(** IEEE 754 binary64, round to nearest even. *)
#[export] Instance float_arith : Arith float := {
  nzero := 0%float;
  nadd := PrimFloat.add;
  nsub := PrimFloat.sub;
  nmul := PrimFloat.mul;
  ndiv := PrimFloat.div;
  nltb := PrimFloat.ltb
}.

(** ** [std::map<double,double>]

    The map is its sequence of (key, value) pairs in iteration order, that is
    in increasing key order for the comparator [<].  An iterator is a
    position in that sequence: [begin()] is [0] and [end()] is the length. *)

Section StdMap.
Context {A : Type} `{Arith A}.
Local Open Scope num_scope.

Definition dmap : Type := list (A * A).

(** [m.empty()] *)
Definition map_empty (m : dmap) : bool :=
  match m with [] => true | _ :: _ => false end.

(** [m.lower_bound(t)]: the first position whose key is not less than [t]. *)
Fixpoint map_lower_bound (m : dmap) (t : A) : nat :=
  match m with
  | [] => 0%nat
  | (k, _) :: m' => if k <? t then S (map_lower_bound m' t) else 0%nat
  end.

(** [m[k] = v]: two keys are the same key when neither is less than the
    other; an existing entry keeps its key and takes the new value. *)
Fixpoint map_assign (m : dmap) (k v : A) : dmap :=
  match m with
  | [] => [(k, v)]
  | (k', v') :: m' =>
      if k <? k' then (k, v) :: m
      else if k' <? k then (k', v') :: map_assign m' k v
      else (k', v) :: m'
  end.

(** [m.count(k)] *)
Fixpoint map_count (m : dmap) (k : A) : nat :=
  match m with
  | [] => 0%nat
  | (k', _) :: m' =>
      if k <? k' then 0%nat
      else if k' <? k then map_count m' k
      else 1%nat
  end.

(** [*it] for a position inside the map. *)
Definition map_at (m : dmap) (it : nat) : A * A := nth it m (nzero, nzero).

(** [*m.rbegin()] *)
Definition map_rbegin (m : dmap) : A * A := last m (nzero, nzero).

(** ** class ZeroCurve *)

Record ZeroCurve : Type := { _curveData : dmap }.

Definition emptyCurve : ZeroCurve := {| _curveData := [] |}.

Definition addNode (c : ZeroCurve) (time rate : A) : ZeroCurve :=
  {| _curveData := map_assign (_curveData c) time rate |}.

(** The branch of [getZeroRate] that produces the result. *)
Inductive RateCase : Type :=
| CaseEmpty
| CaseA   (* extrapolation after the last point *)
| CaseB   (* at or before the first point *)
| CaseC.  (* interpolation *)

Definition getZeroRate_case (c : ZeroCurve) (t : A) : RateCase :=
  let m := _curveData c in
  if map_empty m then CaseEmpty
  else
    let it := map_lower_bound m t in
    if Nat.eqb it (length m) then CaseA
    else if Nat.eqb it 0 then CaseB
    else CaseC.

Definition getZeroRate (c : ZeroCurve) (t : A) : A :=
  let m := _curveData c in
  if map_empty m then nzero
  else
    let it := map_lower_bound m t in
    if Nat.eqb it (length m) then snd (map_rbegin m)
    else if Nat.eqb it 0 then snd (map_at m it)
    else
      let it_t2 := it in
      let it_t1 := Nat.pred it in
      let t1 := fst (map_at m it_t1) in
      let t2 := fst (map_at m it_t2) in
      let r1 := snd (map_at m it_t1) in
      let r2 := snd (map_at m it_t2) in
      (r2 - r1) / (t2 - t1) * (t - t1) + r1.

Definition getCurve (c : ZeroCurve) : dmap := _curveData c.

Definition getMaxMaturity (c : ZeroCurve) : A :=
  if map_empty (_curveData c) then nzero else fst (map_rbegin (_curveData c)).
End StdMap.

Arguments dmap A : clear implicits.
Arguments ZeroCurve A : clear implicits.

(** ** The part of the program that runs over [exp], [log] and [floor] *)

Local Open Scope R_scope.

(** [floor] of [<cmath>]. *)
Definition floor (x : R) : R := IZR (Zfloor x).

Definition getDiscountFactor (c : ZeroCurve R) (t : R) : R :=
  let r := getZeroRate c t in
  exp (- r * t).

(** *** class SwapQuote *)

Record SwapQuote : Type := { maturity : R; rate : R }.

(** *** class Bootstrapper *)

Definition FIXED_TAU : R := 0.5.

Record Bootstrapper : Type := { _quotes : list SwapQuote }.

(** The constructor sorts the quotes by maturity.  [std::sort] fixes no order
    among quotes of equal maturity; this insertion sort keeps their input
    order.  The results below about [calibrate] hold for every quote
    sequence, hence for every order [std::sort] may choose. *)
Fixpoint insert_quote (q : SwapQuote) (l : list SwapQuote) : list SwapQuote :=
  match l with
  | [] => [q]
  | q' :: l' =>
      if Rltb (maturity q') (maturity q) then q' :: insert_quote q l'
      else q :: l
  end.

Definition sort_quotes (l : list SwapQuote) : list SwapQuote :=
  fold_right insert_quote [] l.

Definition newBootstrapper (quotes : list SwapQuote) : Bootstrapper :=
  {| _quotes := sort_quotes quotes |}.

(** The number of [i >= 1] with [i * FIXED_TAU < mat], that is
    [ceil(2 * mat) - 1].  Both coupon loops of the program run exactly that
    many times ([full_periods_guard] below); it serves as their fuel. *)
Definition full_periods (mat : R) : nat :=
  Z.to_nat (- Zfloor (- (2 * mat)) - 1).

(** [for (int i = 1; i*FIXED_TAU < mat; ++i)
       sumDiscountedCoupons += S * FIXED_TAU * curve.getDiscountFactor(FIXED_TAU*i);]
    The counter is unbounded here; the program's [int] is not exceeded below a
    maturity of 2^30 years. *)
Fixpoint coupon_loop (fuel : nat) (curve : ZeroCurve R) (mat S : R)
    (i : nat) (sumDiscountedCoupons : R) : R :=
  match fuel with
  | O => sumDiscountedCoupons
  | Datatypes.S fuel' =>
      if Rltb (INR i * FIXED_TAU) mat then
        coupon_loop fuel' curve mat S (Datatypes.S i)
          (sumDiscountedCoupons
           + S * FIXED_TAU * getDiscountFactor curve (FIXED_TAU * INR i))
      else sumDiscountedCoupons
  end.

Definition sumDiscountedCoupons (curve : ZeroCurve R) (mat S : R) : R :=
  coupon_loop (Datatypes.S (full_periods mat)) curve mat S 1 0.0.

(** [tau_n], the length of the last period. *)
Definition last_period (mat : R) : R := mat - floor (2.0 * mat) / 2.0.

(** [df_n] of one bootstrapping step. *)
Definition step_df (curve : ZeroCurve R) (mat S : R) : R :=
  let tau_n := last_period mat in
  (1.0 - sumDiscountedCoupons curve mat S) / (1.0 + tau_n * S).

(** The body of the loop of [calibrate] (the progress line written to
    [cout] is left out). *)
Definition calibrate_step (curve : ZeroCurve R) (swap : SwapQuote) : ZeroCurve R :=
  let mat := maturity swap in
  let S := rate swap in
  if negb (Nat.eqb (map_count (getCurve curve) mat) 0) then curve
  else
    let df_n := step_df curve mat S in
    let zeroRate := if Rltb 0 df_n then - ln df_n / mat else 0.0 in
    addNode curve mat zeroRate.

Definition calibrate (b : Bootstrapper) (initialCurve : ZeroCurve R) : ZeroCurve R :=
  let curve := initialCurve in
  fold_left calibrate_step (_quotes b) curve.

(** *** class SwapPricer *)

(** [for (double t = FIXED_TAU; t < maturity; t += FIXED_TAU)
       sum += FIXED_TAU * curve.getDiscountFactor(t);] *)
Fixpoint annuity_loop (fuel : nat) (curve : ZeroCurve R) (maturity : R)
    (t : R) (sum : R) : R :=
  match fuel with
  | O => sum
  | Datatypes.S fuel' =>
      if Rltb t maturity then
        annuity_loop fuel' curve maturity (t + FIXED_TAU)
          (sum + FIXED_TAU * getDiscountFactor curve t)
      else sum
  end.

Definition annuity (curve : ZeroCurve R) (maturity : R) : R :=
  let sum := annuity_loop (Datatypes.S (full_periods maturity)) curve maturity FIXED_TAU 0.0 in
  let last_tau := maturity - floor (2 * maturity) / 2.0 in
  sum + last_tau * getDiscountFactor curve maturity.

Definition calculateFaireRate (curve : ZeroCurve R) (maturity : R) : R :=
  let A := annuity curve maturity in
  let DF_end := getDiscountFactor curve maturity in
  if Rltb A 1e-8 then 0
  else (1.0 - DF_end) / A.

Definition priceSwap (curve : ZeroCurve R) (maturity fixedRate : R) : R :=
  let pvFixed := fixedRate * annuity curve maturity in
  let pvFloat := 1.0 - getDiscountFactor curve maturity in
  pvFloat - pvFixed.

(** *** How a call of [calibrate] ends

    [calibrate] contains no [throw] and calls nothing that throws on a
    [double]: every call returns a curve. *)
Inductive CurveError : Type :=
| InvalidMaturity
| NonPositiveDiscountFactor.

Inductive Outcome (T : Type) : Type :=
| Returns (v : T)
| Fails (e : CurveError).
Arguments Returns {T} v.
Arguments Fails {T} e.

Definition calibrate_outcome (b : Bootstrapper) (initialCurve : ZeroCurve R)
  : Outcome (ZeroCurve R) :=
  Returns (calibrate b initialCurve).

Definition addNode_outcome (c : ZeroCurve R) (time rate : R)
  : Outcome (ZeroCurve R) :=
  Returns (addNode c time rate).

Definition getZeroRate_outcome (c : ZeroCurve R) (t : R) : Outcome R :=
  Returns (getZeroRate c t).

(** ** Notions used to state the properties *)

Definition key_lt (p q : R * R) : Prop := fst p < fst q.

(** The invariant of [std::map]: keys strictly increasing. *)
Definition map_ok (m : dmap R) : Prop := StronglySorted key_lt m.

(** The curves that the program can hold: built from the empty curve by
    [addNode]. *)
Inductive reachable : ZeroCurve R -> Prop :=
| reach_empty : reachable emptyCurve
| reach_add (c : ZeroCurve R) (time rate : R) :
    reachable c -> reachable (addNode c time rate).

(** Pillars with a maturity below [t]. *)
Definition below (t : R) (p : R * R) : Prop := fst p < t.

(** The curve has a pillar at [t], as [calibrate] tests it. *)
Definition has_pillar (c : ZeroCurve R) (t : R) : Prop :=
  map_count (getCurve c) t <> 0%nat.

(** The zero rate that a step stores for its discount factor. *)
Definition step_rate (df_n mat : R) : R :=
  if Rltb 0 df_n then - ln df_n / mat else 0.0.

(** Sum of [f j] over a list of indices. *)
Definition Rsum (f : nat -> R) (l : list nat) : R :=
  fold_right (fun j acc => f j + acc) 0 l.

(** The coupon dates [i >= 1] with [i * tau < T], in increasing order. *)
Definition coupon_dates (T : R) : list nat := seq 1 (full_periods T).

(** The formulas in the words of the specification, to compare the code with:
    the stub length [T - floor(T / tau) * tau], and the coupons
    [S * tau * DF(i * tau)] summed over the integers [i >= 1] with
    [i * tau < T]. *)
Definition spec_tau_last (T : R) : R := T - floor (T / FIXED_TAU) * FIXED_TAU.

Definition spec_sumCoupons (curve : ZeroCurve R) (T S : R) : R :=
  Rsum (fun i => S * FIXED_TAU * getDiscountFactor curve (INR i * FIXED_TAU))
    (coupon_dates T).

(** ** Inputs *)

(** Pillars (1, 0.01) and (3, 0.03). *)
Definition two_pillars : ZeroCurve R :=
  addNode (addNode emptyCurve 1 0.01) 3 0.03.

(** A curve of [double]s with the pillars (1, 0.005), (7, 0.03) and
    (10, 0.04). *)
Definition drift_curve : ZeroCurve float :=
  (addNode (addNode (addNode emptyCurve 1 0.005) 7 0.03) 10 0.04)%float.

(** A curve of [double]s with the two pillars (1, 0.005) and (7, 0.03). *)
Definition last_drift_curve : ZeroCurve float :=
  (addNode (addNode emptyCurve 1 0.005) 7 0.03)%float.

(** A swap of a year and a half quoted at 200% on the empty curve. *)
Definition steep_quote : SwapQuote := {| maturity := 1.5; rate := 2 |}.

(** The data of [main]. *)
Definition zcb_0_5_rate : R := 0.0100.

Definition marketData : list SwapQuote :=
  [ {| maturity := 0.5; rate := zcb_0_5_rate |};
    {| maturity := 1.0; rate := 0.0150 |};
    {| maturity := 2.0; rate := 0.0190 |};
    {| maturity := 3.0; rate := 0.0240 |};
    {| maturity := 5.0; rate := 0.0315 |};
    {| maturity := 6.0; rate := 0.0400 |} ].

Definition ZCB_TAU : R := 0.5.
Definition df_0_5 : R := 1.0 / (1.0 + zcb_0_5_rate * ZCB_TAU).
Definition r_0_5 : R := - ln df_0_5 / ZCB_TAU.

(** The curve of [main] before and after [solver.calibrate(curve)]. *)
Definition main_seed : ZeroCurve R := addNode emptyCurve ZCB_TAU r_0_5.
Definition main_solver : Bootstrapper := newBootstrapper marketData.
Definition main_curve : ZeroCurve R := calibrate main_solver main_seed.

(** The first steps of that calibration: the discount factors and zero rates
    found for the one-year and the two-year quotes, the discount factor at a
    year and a half as the two-year step reads it (the one-year rate,
    extrapolated flat) and as the finished curve gives it (interpolated
    between the one-year and the two-year rates), and the curve after each of
    the two steps. *)
Definition df_1 : R := 1 - 0.0150 * 0.5 * df_0_5.
Definition r_1 : R := - ln df_1 / 1.0.
Definition df_1_5_flat : R := exp (- r_1 * 1.5).
Definition df_2 : R := 1 - 0.0190 * 0.5 * (df_0_5 + df_1 + df_1_5_flat).
Definition r_2 : R := - ln df_2 / 2.0.
Definition df_1_5_interp : R :=
  exp (- ((r_2 - r_1) / (2.0 - 1.0) * (1.5 - 1.0) + r_1) * 1.5).

Definition main_curve_1 : ZeroCurve R :=
  {| _curveData := [(0.5, r_0_5); (1.0, r_1)] |}.

Definition main_curve_2 : ZeroCurve R :=
  {| _curveData := [(0.5, r_0_5); (1.0, r_1); (2.0, r_2)] |}.

(** ** Further notions *)

(** The order in which the constructor leaves the quotes, and the strict
    order of quotes of different maturities. *)
Definition maturity_le (a b : SwapQuote) : Prop := maturity a <= maturity b.
Definition maturity_lt (a b : SwapQuote) : Prop := maturity a < maturity b.

(** A maturity on the tenor grid: a multiple of the period. *)
Definition on_grid (T : R) : Prop := exists k : Z, T = IZR k * FIXED_TAU.

(** * Properties *)

(** ** Comparison of reals *)

Lemma Rltb_true (x y : R) : Rltb x y = true <-> x < y.
Proof. unfold Rltb. destruct (Rlt_dec x y); split; intros; auto; discriminate. Qed.

Lemma Rltb_false (x y : R) : Rltb x y = false <-> y <= x.
Proof.
  unfold Rltb. destruct (Rlt_dec x y); split; intros; auto; try discriminate; lra.
Qed.

Lemma Rltb_lt (x y : R) : x < y -> Rltb x y = true.
Proof. apply Rltb_true. Qed.

Lemma Rltb_ge (x y : R) : y <= x -> Rltb x y = false.
Proof. apply Rltb_false. Qed.

(** Case analysis on a comparison, keeping the fact in the context. *)
Ltac case_ltb x y :=
  let Hlt := fresh "Hlt" in
  destruct (Rltb x y) eqn:Hlt;
  [apply Rltb_true in Hlt | apply Rltb_false in Hlt].

(** Comparisons of numerals, decided by linear arithmetic. *)
Ltac eval_ltb :=
  repeat first [rewrite Rltb_lt by lra | rewrite Rltb_ge by lra].

(** ** Exponential and logarithm *)

Lemma exp_lower (x : R) : 1 + x <= exp x.
Proof.
  destruct (Req_dec x 0) as [-> | Hx].
  - rewrite exp_0. lra.
  - left. apply exp_ineq1. exact Hx.
Qed.

Lemma exp_le (x y : R) : x <= y -> exp x <= exp y.
Proof.
  intros [Hlt | ->]; [left; apply exp_increasing; exact Hlt | apply Rle_refl].
Qed.

Lemma exp_upper_neg (u : R) : 0 < u -> exp (- u) <= / (1 + u).
Proof.
  intros Hu. rewrite exp_Ropp.
  apply Rinv_le_contravar; [lra | apply exp_lower].
Qed.

Lemma ln_upper (x : R) : 0 < x -> ln x <= x - 1.
Proof.
  intros Hx. pose proof (exp_lower (ln x)) as H. rewrite exp_ln in H by exact Hx. lra.
Qed.

Lemma ln_lower (x : R) : 0 < x -> 1 - / x <= ln x.
Proof.
  intros Hx. pose proof (exp_lower (- ln x)) as H.
  rewrite exp_Ropp, exp_ln in H by exact Hx. lra.
Qed.

(** ** The map over the reals *)

Section RealMap.
Implicit Types (m : dmap R) (k v t : R).

Lemma map_ok_nil : map_ok [].
Proof. constructor. Qed.

Lemma map_ok_tail p m : map_ok (p :: m) -> map_ok m.
Proof. inversion 1; assumption. Qed.

Lemma map_ok_head p m : map_ok (p :: m) -> Forall (key_lt p) m.
Proof. inversion 1; assumption. Qed.

Lemma map_ok_app l1 l2 :
  map_ok (l1 ++ l2) ->
  map_ok l1 /\ map_ok l2 /\
  forall p q, In p l1 -> In q l2 -> key_lt p q.
Proof.
  induction l1 as [|a l1 IH]; simpl; intros Hs.
  - repeat split; [constructor | assumption | intros ? ? []].
  - inversion Hs as [|? ? Hs' Hall]; subst.
    destruct (IH Hs') as (H1 & H2 & H3).
    apply Forall_app in Hall as [Ha1 Ha2].
    repeat split; [constructor; assumption | assumption |].
    intros p q [<- | Hp] Hq.
    + rewrite Forall_forall in Ha2. auto.
    + auto.
Qed.

Lemma map_assign_keys m k v p :
  In p (map_assign m k v) -> p = (k, v) \/ (fst p = k /\ snd p = v) \/ In p m.
Proof.
  induction m as [|[k' v'] m IH]; simpl.
  - intros [<- | []]; auto.
  - case_ltb k k'.
    + intros [<- | Hin]; auto.
    + case_ltb k' k.
      * intros [<- | Hin]; auto.
        destruct (IH Hin) as [-> | [Hk | Hm]]; auto.
      * intros [<- | Hin]; auto.
        right; left; simpl. split; lra.
Qed.

Lemma map_assign_ok m k v : map_ok m -> map_ok (map_assign m k v).
Proof.
  induction m as [|[k' v'] m IH]; simpl; intros Hok.
  - repeat constructor.
  - pose proof (map_ok_head _ _ Hok) as Hhd. pose proof (map_ok_tail _ _ Hok) as Htl.
    case_ltb k k'.
    + constructor; [assumption|].
      constructor; [exact Hlt|].
      rewrite Forall_forall in *. intros q Hq. specialize (Hhd q Hq).
      unfold key_lt in *; simpl in *; lra.
    + case_ltb k' k.
      * constructor; [apply IH; exact Htl|].
        rewrite Forall_forall in *. intros q Hq.
        apply map_assign_keys in Hq. destruct Hq as [-> | [[Hk _] | Hm]];
          unfold key_lt; simpl; auto.
        -- lra.
        -- apply (Hhd q Hm).
      * constructor; [assumption|].
        rewrite Forall_forall in *. intros q Hq. apply (Hhd q Hq).
Qed.

(** The new pillar is in the map. *)
Lemma map_assign_In m k v : In (k, v) (map_assign m k v).
Proof.
  induction m as [|[k' v'] m IH]; simpl; auto.
  case_ltb k k'; [simpl; auto|].
  case_ltb k' k; [simpl; auto|].
  assert (k' = k) by lra. subst. simpl; auto.
Qed.

(** [count] and [operator[]] walk the map alike: when [count] is 0 the
    assignment inserts and every pillar stays. *)
Lemma map_assign_fresh m k v p :
  map_count m k = 0%nat -> In p m -> In p (map_assign m k v).
Proof.
  induction m as [|[k' v'] m IH]; simpl; [intros _ []|].
  case_ltb k k'; [simpl; auto|].
  case_ltb k' k; [|discriminate].
  intros Hc [<- | Hin]; simpl; auto.
Qed.

Lemma map_assign_fresh_inv m k v p :
  In p (map_assign m k v) -> p = (k, v) \/ In p m.
Proof.
  induction m as [|[k' v'] m IH]; simpl.
  - intros [<- | []]; auto.
  - case_ltb k k'; [intros [<- | Hin]; auto|].
    case_ltb k' k.
    + intros [<- | Hin]; auto. destruct (IH Hin); auto.
    + assert (k' = k) by lra; subst. intros [<- | Hin]; auto.
Qed.

Lemma map_count_assign_same m k v : map_count (map_assign m k v) k = 1%nat.
Proof.
  induction m as [|[k' v'] m IH]; simpl.
  - rewrite Rltb_ge by lra. reflexivity.
  - case_ltb k k'; simpl.
    + rewrite Rltb_ge by lra. reflexivity.
    + case_ltb k' k; simpl.
      * rewrite (Rltb_ge k k') by lra. rewrite (Rltb_lt k' k) by lra. exact IH.
      * rewrite (Rltb_ge k k') by lra. rewrite (Rltb_ge k' k) by lra. reflexivity.
Qed.

Lemma map_count_assign_other m k v k0 :
  map_count m k0 <> 0%nat -> map_count (map_assign m k v) k0 <> 0%nat.
Proof.
  induction m as [|[k' v'] m IH]; simpl; [congruence|].
  case_ltb k0 k'; [congruence|].
  case_ltb k k'; simpl.
  - intros Hc. rewrite (Rltb_ge k0 k) by lra.
    case_ltb k k0; [|discriminate].
    rewrite (Rltb_ge k0 k') by lra. exact Hc.
  - case_ltb k' k; simpl; rewrite (Rltb_ge k0 k') by lra.
    + case_ltb k' k0; [apply IH | discriminate].
    + trivial.
Qed.

(** On a well-formed map [count] tells whether the key is present. *)
Lemma map_count_In m k :
  map_ok m -> (map_count m k <> 0%nat <-> exists v, In (k, v) m).
Proof.
  induction m as [|[k' v'] m IH]; simpl; intros Hok.
  - split; [congruence | intros [? []]].
  - pose proof (map_ok_head _ _ Hok) as Hhd. pose proof (map_ok_tail _ _ Hok) as Htl.
    rewrite Forall_forall in Hhd.
    case_ltb k k'.
    + split; [congruence|]. intros [v [Heq | Hin]].
      * inversion Heq; lra.
      * specialize (Hhd _ Hin). unfold key_lt in Hhd; simpl in Hhd. lra.
    + case_ltb k' k.
      * rewrite (IH Htl). split; intros [v Hv]; exists v; auto.
        destruct Hv as [Heq | Hin]; [inversion Heq; lra | assumption].
      * split; [|discriminate]. intros _. exists v'. left. f_equal. lra.
Qed.

(** Pillars below the new key stay in front. *)
Lemma map_assign_prefix (l rest : dmap R) (k v : R) :
  Forall (below k) l ->
  map_assign (l ++ rest) k v = l ++ map_assign rest k v.
Proof.
  induction l as [|[k' v'] l IH]; intros Hlow; [reflexivity|].
  inversion Hlow as [|? ? Hk Hl]; subst. unfold below in Hk; simpl in Hk.
  simpl. change (nltb k k') with (Rltb k k'). change (nltb k' k) with (Rltb k' k).
  rewrite (Rltb_ge k k') by lra. rewrite (Rltb_lt k' k) by lra.
  rewrite IH by assumption. reflexivity.
Qed.

Lemma map_count_prefix (l rest : dmap R) (k : R) :
  Forall (below k) l ->
  map_count (l ++ rest) k = map_count rest k.
Proof.
  induction l as [|[k' v'] l IH]; intros Hlow; [reflexivity|].
  inversion Hlow as [|? ? Hk Hl]; subst. unfold below in Hk; simpl in Hk.
  simpl. change (nltb k k') with (Rltb k k'). change (nltb k' k) with (Rltb k' k).
  rewrite (Rltb_ge k k') by lra. rewrite (Rltb_lt k' k) by lra.
  apply IH. assumption.
Qed.

End RealMap.

(** Evaluation of map operations on a map of numerals. *)
Ltac eval_map :=
  unfold addNode, emptyCurve, getCurve;
  repeat (progress (cbn [map_count map_assign _curveData nltb R_arith]; eval_ltb)).

(** ** Where [lower_bound] lands, and what [getZeroRate] returns there *)

Section RealCurve.
Implicit Types (c : ZeroCurve R) (m : dmap R) (t : R).

Lemma map_lower_bound_split m t l1 l2 :
  m = l1 ++ l2 ->
  Forall (below t) l1 ->
  match l2 with [] => True | p :: _ => t <= fst p end ->
  map_lower_bound m t = length l1.
Proof.
  intros -> Hlow Hhd. induction l1 as [|[k v] l1 IH]; simpl.
  - destruct l2 as [|[k v] l2]; simpl; [reflexivity|].
    change (k <? t)%num with (Rltb k t).
    simpl in Hhd. rewrite Rltb_ge by assumption. reflexivity.
  - inversion Hlow as [|? ? Hk Hl1]; subst. unfold below in Hk; simpl in Hk.
    change (k <? t)%num with (Rltb k t).
    rewrite Rltb_lt by assumption. f_equal. apply IH. assumption.
Qed.

(** In a well-formed map every pillar before a given one is below it. *)
Lemma map_ok_prefix_below l1 p l2 t :
  map_ok (l1 ++ p :: l2) -> fst p <= t -> Forall (below t) l1.
Proof.
  intros Hok Hp. apply map_ok_app in Hok as (_ & _ & Hlt).
  rewrite Forall_forall. intros q Hq.
  specialize (Hlt q p Hq (or_introl eq_refl)).
  unfold key_lt in Hlt. unfold below. lra.
Qed.

Lemma map_ok_all_below l p t :
  map_ok (l ++ [p]) -> fst p < t -> Forall (below t) (l ++ [p]).
Proof.
  intros Hok Hp. apply Forall_app. split.
  - apply (map_ok_prefix_below l p [] t Hok). lra.
  - constructor; [exact Hp | constructor].
Qed.

(** Case B: [lower_bound] is [begin()]. *)
Lemma getZeroRate_first c t p l2 :
  getCurve c = p :: l2 -> t <= fst p ->
  getZeroRate c t = snd p /\ getZeroRate_case c t = CaseB.
Proof.
  destruct c as [m]. simpl. intros -> Hp.
  unfold getZeroRate, getZeroRate_case. simpl _curveData. cbv zeta.
  rewrite (map_lower_bound_split (p :: l2) t [] (p :: l2) eq_refl (Forall_nil _) Hp).
  simpl. split; reflexivity.
Qed.

(** Case A: [lower_bound] is [end()]. *)
Lemma getZeroRate_after c t l p :
  getCurve c = l ++ [p] -> Forall (below t) (l ++ [p]) ->
  getZeroRate c t = snd p /\ getZeroRate_case c t = CaseA.
Proof.
  destruct c as [m]. simpl. intros -> Hlow.
  unfold getZeroRate, getZeroRate_case. simpl _curveData. cbv zeta.
  rewrite (map_lower_bound_split (l ++ [p]) t (l ++ [p]) []
             (eq_sym (app_nil_r _)) Hlow I).
  rewrite Nat.eqb_refl.
  assert (Hne : map_empty (l ++ [p]) = false) by (destruct l; reflexivity).
  rewrite Hne. unfold map_rbegin. rewrite last_last. split; reflexivity.
Qed.

(** Case C: [lower_bound] is inside the map. *)
Lemma getZeroRate_between c t l0 q p l2 :
  getCurve c = l0 ++ q :: p :: l2 ->
  Forall (below t) l0 -> fst q < t -> t <= fst p ->
  getZeroRate c t = (snd p - snd q) / (fst p - fst q) * (t - fst q) + snd q
  /\ getZeroRate_case c t = CaseC.
Proof.
  destruct c as [m]. simpl. intros -> Hlow Hq Hp.
  unfold getZeroRate, getZeroRate_case. simpl _curveData. cbv zeta.
  assert (Hlb : map_lower_bound (l0 ++ q :: p :: l2) t = length (l0 ++ [q])).
  { apply (map_lower_bound_split _ t (l0 ++ [q]) (p :: l2)).
    - rewrite <- app_assoc. reflexivity.
    - apply Forall_app. split; [assumption|]. constructor; [exact Hq | constructor].
    - exact Hp. }
  rewrite Hlb.
  assert (Hne : map_empty (l0 ++ q :: p :: l2) = false) by (destruct l0; reflexivity).
  rewrite Hne.
  assert (Hlen : length (l0 ++ [q]) = S (length l0))
    by (rewrite length_app; simpl; lia).
  rewrite Hlen.
  assert (Hend : Nat.eqb (S (length l0)) (length (l0 ++ q :: p :: l2)) = false).
  { apply Nat.eqb_neq. rewrite length_app. simpl. lia. }
  rewrite Hend. simpl Nat.eqb. simpl Nat.pred. unfold map_at.
  rewrite nth_middle.
  replace (l0 ++ q :: p :: l2) with ((l0 ++ [q]) ++ p :: l2)
    by (rewrite <- app_assoc; reflexivity).
  rewrite <- Hlen. rewrite nth_middle. split; reflexivity.
Qed.

(** At a stored maturity the formula of Case C gives back the stored rate:
    an identity of exact arithmetic. *)
Lemma interpolation_at_knot (t1 r1 t2 r2 : R) :
  t1 < t2 -> (r2 - r1) / (t2 - t1) * (t2 - t1) + r1 = r2.
Proof. intros Hlt. field. lra. Qed.

Lemma split_last {X : Type} (l : list X) :
  l = [] \/ exists l' x, l = l' ++ [x].
Proof.
  destruct l as [|a l]; [left; reflexivity | right].
  destruct (@exists_last X (a :: l)) as (l' & x & Heq); [discriminate|].
  exists l', x. exact Heq.
Qed.

(** The zero rate at a pillar of a well-formed curve, in exact arithmetic. *)
Lemma getZeroRate_pillar c T r :
  map_ok (getCurve c) -> In (T, r) (getCurve c) -> getZeroRate c T = r.
Proof.
  intros Hok Hin. apply in_split in Hin as (l1 & l2 & Heq).
  rewrite Heq in Hok.
  pose proof (map_ok_prefix_below l1 (T, r) l2 T Hok (Rle_refl _)) as Hlow.
  destruct (split_last l1) as [-> | (l0 & q & ->)].
  - apply (getZeroRate_first c T (T, r) l2 Heq). simpl; lra.
  - rewrite <- app_assoc in Heq. simpl in Heq.
    apply Forall_app in Hlow as [Hlow0 Hq].
    inversion Hq as [|? ? Hq' _]; subst. unfold below in Hq'.
    destruct (getZeroRate_between c T l0 q (T, r) l2 Heq Hlow0 Hq' (Rle_refl _))
      as [-> _].
    simpl. apply interpolation_at_knot. exact Hq'.
Qed.

(** Strictly between the first and the last maturities there is a pair of
    neighbouring pillars around [t]. *)
Lemma bracket_exists (m : dmap R) (p : R * R) (t : R) (d : R * R) :
  fst p < t -> t <= fst (last (p :: m) d) ->
  exists l1 t1 r1 t2 r2 l2,
    p :: m = l1 ++ (t1, r1) :: (t2, r2) :: l2 /\ t1 < t <= t2.
Proof.
  revert p. induction m as [|p2 m IH]; intros [t0 r0] Hlo Hhi.
  - simpl in *. lra.
  - destruct (Rle_dec t (fst p2)) as [Hle | Hgt].
    + destruct p2 as [t2 r2]. exists [], t0, r0, t2, r2, m. simpl in *. auto.
    + destruct (IH p2) as (l1 & t1 & r1 & t2 & r2 & l2 & Heq & Hbr).
      * lra.
      * exact Hhi.
      * exists ((t0, r0) :: l1), t1, r1, t2, r2, l2. rewrite Heq. auto.
Qed.

End RealCurve.

(** ** The coupon loops *)

(** [ceil(2 * mat)], through [floor]. *)
Lemma ceil_bound (x : R) :
  IZR (- Zfloor (- x)) - 1 < x <= IZR (- Zfloor (- x)).
Proof.
  pose proof (Zfloor_bound (- x)) as [Hlo Hhi].
  rewrite opp_IZR. lra.
Qed.

(** The guard [i * FIXED_TAU < mat] holds exactly for [i] up to
    [full_periods mat]. *)
Lemma full_periods_guard (mat : R) (i : nat) :
  (1 <= i)%nat -> (INR i * FIXED_TAU < mat <-> (i <= full_periods mat)%nat).
Proof.
  intros Hi. unfold full_periods, FIXED_TAU.
  pose proof (ceil_bound (2 * mat)) as [Hlo Hhi].
  set (c := (- Zfloor (- (2 * mat)))%Z) in *.
  rewrite INR_IZR_INZ. split.
  - intros Hlt.
    assert (Hc : (Z.of_nat i < c)%Z) by (apply lt_IZR; lra).
    lia.
  - intros Hle.
    assert (Hc : (Z.of_nat i <= c - 1)%Z) by lia.
    apply IZR_le in Hc. rewrite minus_IZR in Hc. lra.
Qed.

Lemma Rsum_ext (f g : nat -> R) (l : list nat) :
  (forall j, In j l -> f j = g j) -> Rsum f l = Rsum g l.
Proof.
  induction l as [|a l IH]; simpl; intros Hfg; [reflexivity|].
  rewrite (Hfg a) by auto. rewrite IH by auto. reflexivity.
Qed.

Lemma Rsum_scale (a : R) (f : nat -> R) (l : list nat) :
  Rsum (fun j => a * f j) l = a * Rsum f l.
Proof. induction l as [|x l IH]; simpl; [lra | rewrite IH; lra]. Qed.

Lemma Rsum_const (a : R) (f : nat -> R) (l : list nat) :
  (forall j, In j l -> f j = a) -> Rsum f l = INR (length l) * a.
Proof.
  induction l as [|x l IH]; intros Hf.
  - simpl. lra.
  - change (Rsum f (x :: l)) with (f x + Rsum f l).
    rewrite (Hf x) by (left; reflexivity).
    rewrite IH by (intros j Hj; apply Hf; right; exact Hj).
    change (length (x :: l)) with (S (length l)). rewrite S_INR. ring.
Qed.

Lemma coupon_dates_spec (T : R) (i : nat) :
  In i (coupon_dates T) <-> (1 <= i)%nat /\ INR i * FIXED_TAU < T.
Proof.
  unfold coupon_dates. rewrite in_seq. split.
  - intros [H1 H2]. split; [assumption|].
    apply full_periods_guard; lia.
  - intros [H1 H2]. apply full_periods_guard in H2; lia.
Qed.

Section Loops.
Variables (curve : ZeroCurve R) (mat : R).

(** The bootstrapper's loop leaves through its guard whenever the fuel
    exceeds the number of dates left, and has then added one coupon per
    date. *)
Lemma coupon_loop_sum (S : R) (fuel i : nat) (sum : R) :
  (1 <= i)%nat -> (full_periods mat + 1 - i < fuel)%nat ->
  coupon_loop fuel curve mat S i sum
  = sum + Rsum (fun j => S * FIXED_TAU * getDiscountFactor curve (FIXED_TAU * INR j))
            (seq i (full_periods mat + 1 - i)).
Proof.
  revert i sum. induction fuel as [|fuel IH]; intros i sum Hi Hfuel; [lia|].
  simpl. case_ltb (INR i * FIXED_TAU) mat.
  - apply full_periods_guard in Hlt; [|assumption].
    rewrite IH by lia.
    replace (full_periods mat + 1 - i)%nat with (Datatypes.S (full_periods mat + 1 - Datatypes.S i)) by lia.
    simpl. lra.
  - assert (Hgt : ~ (i <= full_periods mat)%nat).
    { intros Hle. apply (full_periods_guard mat i Hi) in Hle. lra. }
    replace (full_periods mat + 1 - i)%nat with 0%nat by lia. simpl. lra.
Qed.

(** The pricer's loop: [t] runs through the same dates. *)
Lemma annuity_loop_sum (fuel i : nat) (sum : R) :
  (1 <= i)%nat -> (full_periods mat + 1 - i < fuel)%nat ->
  annuity_loop fuel curve mat (INR i * FIXED_TAU) sum
  = sum + Rsum (fun j => FIXED_TAU * getDiscountFactor curve (FIXED_TAU * INR j))
            (seq i (full_periods mat + 1 - i)).
Proof.
  revert i sum. induction fuel as [|fuel IH]; intros i sum Hi Hfuel; [lia|].
  simpl. case_ltb (INR i * FIXED_TAU) mat.
  - apply full_periods_guard in Hlt; [|assumption].
    replace (INR i * FIXED_TAU + FIXED_TAU) with (INR (Datatypes.S i) * FIXED_TAU)
      by (rewrite S_INR; ring).
    rewrite IH by lia.
    replace (full_periods mat + 1 - i)%nat with (Datatypes.S (full_periods mat + 1 - Datatypes.S i)) by lia.
    simpl. rewrite (Rmult_comm (INR i) FIXED_TAU). lra.
  - assert (Hgt : ~ (i <= full_periods mat)%nat).
    { intros Hle. apply (full_periods_guard mat i Hi) in Hle. lra. }
    replace (full_periods mat + 1 - i)%nat with 0%nat by lia. simpl. lra.
Qed.

End Loops.



Lemma sumDiscountedCoupons_eq (curve : ZeroCurve R) (mat S : R) :
  sumDiscountedCoupons curve mat S
  = Rsum (fun j => S * FIXED_TAU * getDiscountFactor curve (FIXED_TAU * INR j))
      (coupon_dates mat).
Proof.
  unfold sumDiscountedCoupons, coupon_dates.
  rewrite coupon_loop_sum by lia.
  replace (full_periods mat + 1 - 1)%nat with (full_periods mat) by lia. lra.
Qed.

Lemma annuity_eq (curve : ZeroCurve R) (mat : R) :
  annuity curve mat
  = Rsum (fun j => FIXED_TAU * getDiscountFactor curve (FIXED_TAU * INR j))
      (coupon_dates mat)
    + last_period mat * getDiscountFactor curve mat.
Proof.
  unfold annuity, coupon_dates, last_period. cbv zeta.
  pose proof (annuity_loop_sum curve mat (S (full_periods mat)) 1 0.0) as Hsum.
  replace (INR 1 * FIXED_TAU) with FIXED_TAU in Hsum by (simpl; lra).
  rewrite Hsum by lia.
  replace (full_periods mat + 1 - 1)%nat with (full_periods mat) by lia.
  replace (2.0 * mat) with (2 * mat) by lra. lra.
Qed.

Lemma priceSwap_eq (curve : ZeroCurve R) (T x : R) :
  priceSwap curve T x = (1 - getDiscountFactor curve T) - x * annuity curve T.
Proof. unfold priceSwap. cbv zeta. lra. Qed.

(** ** The formulas of the code and those of the specification *)

Lemma last_period_spec (T : R) : last_period T = spec_tau_last T.
Proof.
  unfold last_period, spec_tau_last, FIXED_TAU.
  replace (2.0 * T) with (T / 0.5) by lra. lra.
Qed.

Lemma sumDiscountedCoupons_spec (curve : ZeroCurve R) (T S : R) :
  sumDiscountedCoupons curve T S = spec_sumCoupons curve T S.
Proof.
  rewrite sumDiscountedCoupons_eq. unfold spec_sumCoupons.
  apply Rsum_ext. intros j _. rewrite (Rmult_comm FIXED_TAU (INR j)). reflexivity.
Qed.

Lemma step_df_spec (curve : ZeroCurve R) (T S : R) :
  step_df curve T S
  = (1 - spec_sumCoupons curve T S) / (1 + spec_tau_last T * S).
Proof.
  unfold step_df. cbv zeta.
  rewrite last_period_spec, sumDiscountedCoupons_spec.
  replace 1.0 with 1 by lra. reflexivity.
Qed.

Lemma spec_tau_last_on_grid (T : R) (k : Z) :
  T = IZR k * FIXED_TAU -> spec_tau_last T = 0.
Proof.
  intros ->. unfold spec_tau_last, floor, FIXED_TAU.
  replace (IZR k * 0.5 / 0.5) with (IZR k) by lra.
  rewrite ZfloorZ. ring.
Qed.

(** ** Evaluation on the tenor grid *)

Lemma full_periods_on_grid (k : Z) :
  full_periods (IZR k * FIXED_TAU) = Z.to_nat (k - 1).
Proof.
  unfold full_periods, FIXED_TAU.
  replace (- (2 * (IZR k * 0.5))) with (- IZR k) by lra.
  rewrite ZfloorNZ. f_equal. lia.
Qed.

Lemma last_period_on_grid (k : Z) : last_period (IZR k * FIXED_TAU) = 0.
Proof. rewrite last_period_spec. apply (spec_tau_last_on_grid _ k). reflexivity. Qed.

Lemma getDiscountFactor_empty (t : R) : getDiscountFactor emptyCurve t = 1.
Proof.
  unfold getDiscountFactor, getZeroRate; simpl.
  replace (- 0 * t) with 0 by ring. apply exp_0.
Qed.

(** On the empty curve every discount factor is 1: the coupons of a swap of
    [k] half years add up to [(k - 1) * S / 2]. *)
Lemma sumDiscountedCoupons_empty (k : Z) (S : R) :
  (1 <= k)%Z ->
  sumDiscountedCoupons emptyCurve (IZR k * FIXED_TAU) S
  = IZR (k - 1) * (S * FIXED_TAU).
Proof.
  intros Hk. rewrite sumDiscountedCoupons_eq.
  rewrite (Rsum_const (S * FIXED_TAU)).
  - unfold coupon_dates. rewrite length_seq, full_periods_on_grid.
    rewrite INR_IZR_INZ, Z2Nat.id by lia. reflexivity.
  - intros j _. rewrite getDiscountFactor_empty. ring.
Qed.

Lemma annuity_empty (k : Z) :
  (1 <= k)%Z ->
  annuity emptyCurve (IZR k * FIXED_TAU) = IZR (k - 1) * FIXED_TAU.
Proof.
  intros Hk. rewrite annuity_eq, last_period_on_grid.
  rewrite (Rsum_const FIXED_TAU).
  - unfold coupon_dates. rewrite length_seq, full_periods_on_grid.
    rewrite INR_IZR_INZ, Z2Nat.id by lia. ring.
  - intros j _. rewrite getDiscountFactor_empty. ring.
Qed.

Lemma annuity_half_year (curve : ZeroCurve R) : annuity curve 0.5 = 0.
Proof.
  replace 0.5 with (IZR 1 * FIXED_TAU) by (unfold FIXED_TAU; lra).
  rewrite annuity_eq, last_period_on_grid.
  unfold coupon_dates. rewrite full_periods_on_grid. simpl. lra.
Qed.

(** ** One bootstrapping step, and the whole calibration *)

Lemma calibrate_step_skip (c : ZeroCurve R) (q : SwapQuote) :
  has_pillar c (maturity q) -> calibrate_step c q = c.
Proof.
  unfold has_pillar, calibrate_step. intros Hc.
  apply Nat.eqb_neq in Hc. rewrite Hc. reflexivity.
Qed.

Lemma calibrate_step_add (c : ZeroCurve R) (q : SwapQuote) :
  map_count (getCurve c) (maturity q) = 0%nat ->
  calibrate_step c q
  = addNode c (maturity q) (step_rate (step_df c (maturity q) (rate q)) (maturity q)).
Proof.
  unfold calibrate_step. intros Hc. rewrite Hc. reflexivity.
Qed.

Lemma calibrate_step_cases (c : ZeroCurve R) (q : SwapQuote) :
  (has_pillar c (maturity q) /\ calibrate_step c q = c) \/
  (map_count (getCurve c) (maturity q) = 0%nat /\
   calibrate_step c q
   = addNode c (maturity q) (step_rate (step_df c (maturity q) (rate q)) (maturity q))).
Proof.
  destruct (Nat.eq_dec (map_count (getCurve c) (maturity q)) 0) as [Hz | Hnz].
  - right. split; [assumption | apply calibrate_step_add; assumption].
  - left. split; [assumption | apply calibrate_step_skip; assumption].
Qed.

Lemma calibrate_step_ok (c : ZeroCurve R) (q : SwapQuote) :
  map_ok (getCurve c) -> map_ok (getCurve (calibrate_step c q)).
Proof.
  intros Hok. destruct (calibrate_step_cases c q) as [[_ ->] | [_ ->]];
    [assumption | apply map_assign_ok; assumption].
Qed.

Lemma calibrate_step_keeps (c : ZeroCurve R) (q : SwapQuote) (p : R * R) :
  In p (getCurve c) -> In p (getCurve (calibrate_step c q)).
Proof.
  intros Hin. destruct (calibrate_step_cases c q) as [[_ ->] | [Hz ->]];
    [assumption | apply map_assign_fresh; assumption].
Qed.

Lemma calibrate_step_new (c : ZeroCurve R) (q : SwapQuote) (p : R * R) :
  In p (getCurve (calibrate_step c q)) ->
  In p (getCurve c) \/
  (map_count (getCurve c) (maturity q) = 0%nat /\
   p = (maturity q, step_rate (step_df c (maturity q) (rate q)) (maturity q))).
Proof.
  destruct (calibrate_step_cases c q) as [[_ ->] | [Hz ->]]; [auto|].
  intros Hin. apply map_assign_fresh_inv in Hin as [-> | Hin]; auto.
Qed.

Lemma calibrate_step_has_self (c : ZeroCurve R) (q : SwapQuote) :
  has_pillar (calibrate_step c q) (maturity q).
Proof.
  destruct (calibrate_step_cases c q) as [[Hp ->] | [_ ->]]; [assumption|].
  unfold has_pillar, addNode, getCurve. simpl.
  rewrite map_count_assign_same. discriminate.
Qed.

Lemma calibrate_step_has_mono (c : ZeroCurve R) (q : SwapQuote) (t : R) :
  has_pillar c t -> has_pillar (calibrate_step c q) t.
Proof.
  intros Hp. destruct (calibrate_step_cases c q) as [[_ ->] | [_ ->]]; [assumption|].
  apply map_count_assign_other. exact Hp.
Qed.

Lemma calibrate_step_prefix (c : ZeroCurve R) (q : SwapQuote) (l rest : dmap R) :
  getCurve c = l ++ rest -> Forall (below (maturity q)) l ->
  exists rest', getCurve (calibrate_step c q) = l ++ rest'.
Proof.
  intros Heq Hlow.
  destruct (calibrate_step_cases c q) as [[_ ->] | [_ ->]].
  - exists rest. exact Heq.
  - eexists. unfold addNode, getCurve in *. simpl. rewrite Heq.
    apply map_assign_prefix. exact Hlow.
Qed.

Lemma reachable_ok (c : ZeroCurve R) : reachable c -> map_ok (getCurve c).
Proof.
  induction 1 as [|c time rate _ IH]; [apply map_ok_nil | apply map_assign_ok, IH].
Qed.

Lemma calibrate_step_reachable (c : ZeroCurve R) (q : SwapQuote) :
  reachable c -> reachable (calibrate_step c q).
Proof.
  intros Hr. destruct (calibrate_step_cases c q) as [[_ ->] | [_ ->]];
    [assumption | apply reach_add; assumption].
Qed.

Section Calibration.
Implicit Types (qs : list SwapQuote) (c : ZeroCurve R).

Lemma calibrate_reachable qs c :
  reachable c -> reachable (fold_left calibrate_step qs c).
Proof.
  revert c. induction qs as [|q qs IH]; simpl; intros c Hr; [assumption|].
  apply IH, calibrate_step_reachable, Hr.
Qed.

Lemma calibrate_ok qs c :
  map_ok (getCurve c) -> map_ok (getCurve (fold_left calibrate_step qs c)).
Proof.
  revert c. induction qs as [|q qs IH]; simpl; intros c Hok; [assumption|].
  apply IH, calibrate_step_ok, Hok.
Qed.

Lemma calibrate_keeps qs c p :
  In p (getCurve c) -> In p (getCurve (fold_left calibrate_step qs c)).
Proof.
  revert c. induction qs as [|q qs IH]; simpl; intros c Hin; [assumption|].
  apply IH, calibrate_step_keeps, Hin.
Qed.

Lemma calibrate_has_mono qs c t :
  has_pillar c t -> has_pillar (fold_left calibrate_step qs c) t.
Proof.
  revert c. induction qs as [|q qs IH]; simpl; intros c Hp; [assumption|].
  apply IH, calibrate_step_has_mono, Hp.
Qed.

Lemma calibrate_has_quotes qs c q :
  In q qs -> has_pillar (fold_left calibrate_step qs c) (maturity q).
Proof.
  revert c. induction qs as [|q0 qs IH]; simpl; intros c; [intros []|].
  intros [-> | Hin]; [|apply IH; assumption].
  apply calibrate_has_mono, calibrate_step_has_self.
Qed.

Lemma calibrate_all_skipped qs c :
  (forall q, In q qs -> has_pillar c (maturity q)) ->
  fold_left calibrate_step qs c = c.
Proof.
  induction qs as [|q qs IH]; simpl; intros Hall; [reflexivity|].
  rewrite calibrate_step_skip by auto. apply IH. auto.
Qed.

Lemma calibrate_new qs c p :
  In p (getCurve (fold_left calibrate_step qs c)) ->
  In p (getCurve c) \/
  exists q, In q qs /\ fst p = maturity q /\ ~ has_pillar c (maturity q).
Proof.
  revert c. induction qs as [|q qs IH]; simpl; intros c Hin; [auto|].
  destruct (IH _ Hin) as [Hold | (q' & Hq' & Hfst & Hnew)].
  - apply calibrate_step_new in Hold as [Hold | [Hz ->]]; [auto|].
    right. exists q. simpl. unfold has_pillar. repeat split; auto.
  - right. exists q'. repeat split; auto.
    intros Hp. apply Hnew. apply calibrate_step_has_mono. exact Hp.
Qed.

Lemma calibrate_prefix (qs : list SwapQuote) (c : ZeroCurve R) (l rest : dmap R) :
  getCurve c = l ++ rest ->
  Forall (fun q => Forall (below (maturity q)) l) qs ->
  exists rest', getCurve (fold_left calibrate_step qs c) = l ++ rest'.
Proof.
  revert c rest. induction qs as [|q qs IH]; intros c rest Heq Hall.
  - exists rest. exact Heq.
  - inversion Hall as [|? ? Hq Hqs]; subst. simpl.
    destruct (calibrate_step_prefix c q l rest Heq Hq) as [rest' Heq'].
    apply (IH _ rest' Heq' Hqs).
Qed.

Lemma pillar_discount_kept (qs : list SwapQuote) (c : ZeroCurve R) (t : R) :
  map_ok (getCurve c) -> has_pillar c t ->
  getDiscountFactor (fold_left calibrate_step qs c) t = getDiscountFactor c t.
Proof.
  intros Hok Hp. apply (map_count_In (getCurve c) t Hok) in Hp as [v Hv].
  unfold getDiscountFactor.
  rewrite (getZeroRate_pillar c t v Hok Hv).
  rewrite (getZeroRate_pillar (fold_left calibrate_step qs c) t v);
    [reflexivity | apply calibrate_ok; exact Hok | apply calibrate_keeps; exact Hv].
Qed.

End Calibration.

(** The stored rate gives back the discount factor it was computed from. *)
Lemma step_rate_discount (df_n mat : R) :
  0 < df_n -> mat <> 0 -> exp (- step_rate df_n mat * mat) = df_n.
Proof.
  intros Hdf Hmat. unfold step_rate. rewrite Rltb_lt by assumption.
  replace (- (- ln df_n / mat) * mat) with (ln df_n) by (field; assumption).
  apply exp_ln. assumption.
Qed.

(** The pillar that a step adds is in the finished curve, and the finished
    curve discounts its maturity by the discount factor of the step. *)
Lemma calibrate_new_pillar
    (seed : ZeroCurve R) (qs1 qs2 : list SwapQuote) (q : SwapQuote) :
  let curve := fold_left calibrate_step qs1 seed in
  map_count (getCurve curve) (maturity q) = 0%nat ->
  In (maturity q, step_rate (step_df curve (maturity q) (rate q)) (maturity q))
     (getCurve (calibrate {| _quotes := qs1 ++ q :: qs2 |} seed)).
Proof.
  intros curve Hfresh. unfold calibrate. simpl _quotes.
  rewrite fold_left_app. simpl. fold curve.
  apply calibrate_keeps. rewrite calibrate_step_add by exact Hfresh.
  apply map_assign_In.
Qed.

Lemma calibrate_new_discount
    (seed : ZeroCurve R) (qs1 qs2 : list SwapQuote) (q : SwapQuote) :
  let curve := fold_left calibrate_step qs1 seed in
  map_ok (getCurve seed) ->
  map_count (getCurve curve) (maturity q) = 0%nat ->
  0 < step_df curve (maturity q) (rate q) -> maturity q <> 0 ->
  getDiscountFactor (calibrate {| _quotes := qs1 ++ q :: qs2 |} seed) (maturity q)
  = step_df curve (maturity q) (rate q).
Proof.
  intros curve Hok Hfresh Hpos HT. unfold getDiscountFactor.
  rewrite (getZeroRate_pillar _ (maturity q)
             (step_rate (step_df curve (maturity q) (rate q)) (maturity q))).
  - apply step_rate_discount; assumption.
  - apply calibrate_ok. exact Hok.
  - apply calibrate_new_pillar. exact Hfresh.
Qed.

(** * The zero curve *)

(** ** The zero-rate lookup *)

(** C3, as stated, fails.  On the curve of [double]s with the pillars
    (1, 0.005) and (7, 0.03) the argument 7 is at the largest stored
    maturity, yet [getZeroRate] does not return the largest pillar's rate
    0.03: [lower_bound] is not [end()], the lookup goes through Case C and
    computes (0.03 - 0.005) / (7 - 1) * (7 - 1) + 0.005, which is
    0.030000000000000002 in the arithmetic of [double]. *)
Lemma getZeroRate_last_pillar_drift :
  getCurve last_drift_curve = [(1, 0.005); (7, 0.03)]%float /\
  getMaxMaturity last_drift_curve = 7%float /\
  getZeroRate_case last_drift_curve 7%float = CaseC /\
  getZeroRate last_drift_curve 7%float
  = ((0.03 - 0.005) / (7 - 1) * (7 - 1) + 0.005)%float /\
  getZeroRate last_drift_curve 7%float = 0.030000000000000002%float /\
  PrimFloat.eqb (getZeroRate last_drift_curve 7%float) 0.03%float = false.
Proof. vm_compute. repeat split; reflexivity. Qed.

(** C3, amended.  On a curve with no pillar [getZeroRate] returns 0 and the
    discount factor is 1.  On a curve with pillars in increasing maturity
    order it returns the first pillar's rate for every [t] at or below the
    first maturity (Case B) and the last pillar's rate for every [t] strictly
    above the last maturity (Case A).  Everywhere else, that is for
    [t1 < t <= t2] between neighbouring pillars, the largest maturity of a
    curve with several pillars included, it returns the value of the formula
    of Case C, [(r2 - r1) / (t2 - t1) * (t - t1) + r1]; in exact arithmetic
    that is the linear interpolation [r1 + (r2 - r1) * (t - t1) / (t2 - t1)],
    and [r2] at [t = t2].  Above the first maturity and up to the last such a
    pair of neighbours exists. *)
Theorem getZeroRate_piecewise (c : ZeroCurve R) (t : R) :
  map_ok (getCurve c) ->
  (getCurve c = [] -> getZeroRate c t = 0 /\ getDiscountFactor c t = 1) /\
  (forall t0 r0 l, getCurve c = (t0, r0) :: l -> t <= t0 ->
     getZeroRate c t = r0 /\ getZeroRate_case c t = CaseB) /\
  (forall l tn rn, getCurve c = l ++ [(tn, rn)] -> tn < t ->
     getZeroRate c t = rn /\ getZeroRate_case c t = CaseA) /\
  (forall l1 t1 r1 t2 r2 l2,
     getCurve c = l1 ++ (t1, r1) :: (t2, r2) :: l2 -> t1 < t <= t2 ->
     getZeroRate_case c t = CaseC /\
     getZeroRate c t = (r2 - r1) / (t2 - t1) * (t - t1) + r1 /\
     getZeroRate c t = r1 + (r2 - r1) * (t - t1) / (t2 - t1) /\
     (t = t2 -> getZeroRate c t = r2)) /\
  (forall t0 r0 l tn rn,
     getCurve c = (t0, r0) :: l ++ [(tn, rn)] -> t0 < t <= tn ->
     exists l1 t1 r1 t2 r2 l2,
       getCurve c = l1 ++ (t1, r1) :: (t2, r2) :: l2 /\ t1 < t <= t2).
Proof.
  intros Hok. split; [|split; [|split; [|split]]].
  - intros Heq. destruct c as [m]; simpl in Heq; subst m. split.
    + reflexivity.
    + apply getDiscountFactor_empty.
  - intros t0 r0 l Heq Hle.
    apply (getZeroRate_first c t (t0, r0) l Heq Hle).
  - intros l tn rn Heq Hlt. rewrite Heq in Hok.
    apply (getZeroRate_after c t l (tn, rn) Heq).
    apply map_ok_all_below; assumption.
  - intros l1 t1 r1 t2 r2 l2 Heq [Hlo Hhi]. rewrite Heq in Hok.
    assert (Hlow : Forall (below t) l1).
    { apply (map_ok_prefix_below l1 (t1, r1) ((t2, r2) :: l2) t Hok). simpl; lra. }
    destruct (getZeroRate_between c t l1 (t1, r1) (t2, r2) l2 Heq Hlow Hlo Hhi)
      as [Hval Hcase].
    simpl in Hval.
    assert (Hk : t1 < t2) by lra.
    split; [exact Hcase|]. split; [exact Hval|]. split.
    + rewrite Hval. field. lra.
    + intros ->. rewrite Hval. apply interpolation_at_knot. exact Hk.
  - intros t0 r0 l tn rn Heq [Hlo Hhi]. rewrite Heq.
    apply (bracket_exists (l ++ [(tn, rn)]) (t0, r0) t (0, 0)); [exact Hlo|].
    change ((t0, r0) :: l ++ [(tn, rn)]) with (((t0, r0) :: l) ++ [(tn, rn)]).
    rewrite last_last. simpl. exact Hhi.
Qed.

Lemma two_pillars_data : getCurve two_pillars = [(1, 0.01); (3, 0.03)].
Proof.
  unfold two_pillars. eval_map. reflexivity.
Qed.

Lemma two_pillars_ok : map_ok (getCurve two_pillars).
Proof. apply map_assign_ok, map_assign_ok, map_ok_nil. Qed.

Lemma getZeroRate_piecewise_witness :
  getZeroRate two_pillars 2 = 0.01 + (0.03 - 0.01) * (2 - 1) / (3 - 1).
Proof.
  refine (proj1 (proj2 (proj2 (proj1 (proj2 (proj2 (proj2
            (getZeroRate_piecewise two_pillars 2 two_pillars_ok))))
            [] 1 0.01 3 0.03 [] two_pillars_data _)))).
  lra.
Defined.

(** ** The lookup at a stored maturity *)

(** The curve class runs on [double]s: halfway between the pillars (1, 0.5)
    and (3, 1.5) the zero rate is 1. *)
Example float_curve_demo :
  getZeroRate (addNode (addNode emptyCurve 1 0.5) 3 1.5)%float 2%float = 1%float.
Proof. vm_compute. reflexivity. Qed.

(** C4, as stated, fails.  The stored maturity 7 is not the first one:
    [getZeroRate] does not return the stored rate but goes through Case C and
    computes (0.03 - 0.005) / (7 - 1) * (7 - 1) + 0.005, which in the
    arithmetic of [double] is 0.030000000000000002 and not the stored
    0.03. *)
Lemma getZeroRate_pillar_drift :
  getCurve drift_curve = [(1, 0.005); (7, 0.03); (10, 0.04)]%float /\
  getZeroRate_case drift_curve 7%float = CaseC /\
  getZeroRate drift_curve 7%float
  = ((0.03 - 0.005) / (7 - 1) * (7 - 1) + 0.005)%float /\
  getZeroRate drift_curve 7%float = 0.030000000000000002%float /\
  PrimFloat.eqb (getZeroRate drift_curve 7%float) 0.03%float = false.
Proof. vm_compute. repeat split; reflexivity. Qed.

(** C4, amended.  In exact arithmetic [getZeroRate] at a stored maturity [T]
    equals the stored rate [r].  Only the first pillar is returned as stored
    (Case B); at any other pillar the result is the value of the
    interpolation formula of Case C taken at [t = T] with the pillar before,
    which equals [r] in exact arithmetic. *)
Theorem getZeroRate_at_pillar (c : ZeroCurve R) (T r : R) :
  map_ok (getCurve c) -> In (T, r) (getCurve c) ->
  getZeroRate c T = r /\
  ((exists l, getCurve c = (T, r) :: l) /\ getZeroRate_case c T = CaseB
   \/
   (exists l0 t1 r1 l2,
      getCurve c = l0 ++ (t1, r1) :: (T, r) :: l2 /\ t1 < T /\
      getZeroRate_case c T = CaseC /\
      getZeroRate c T = (r - r1) / (T - t1) * (T - t1) + r1)).
Proof.
  intros Hok Hin. split; [apply getZeroRate_pillar; assumption|].
  apply in_split in Hin as (l1 & l2 & Heq).
  rewrite Heq in Hok.
  pose proof (map_ok_prefix_below l1 (T, r) l2 T Hok (Rle_refl _)) as Hlow.
  destruct (split_last l1) as [-> | (l0 & [t1 r1] & ->)].
  - left. split; [exists l2; exact Heq|].
    apply (getZeroRate_first c T (T, r) l2 Heq). simpl; lra.
  - right. rewrite <- app_assoc in Heq. simpl in Heq.
    apply Forall_app in Hlow as [Hlow0 Hq].
    inversion Hq as [|? ? Hq' _]; subst. unfold below in Hq'. simpl in Hq'.
    exists l0, t1, r1, l2.
    destruct (getZeroRate_between c T l0 (t1, r1) (T, r) l2 Heq Hlow0 Hq' (Rle_refl _))
      as [Hval Hcase].
    simpl in Hval. auto.
Qed.

Lemma getZeroRate_at_pillar_witness :
  getZeroRate two_pillars 3 = 0.03.
Proof.
  refine (proj1 (getZeroRate_at_pillar two_pillars 3 0.03 two_pillars_ok _)).
  rewrite two_pillars_data. simpl. auto.
Defined.

(** ** Maturities that are not positive *)

(** C6, as stated, fails.  [addNode] takes the maturity -1 and stores the
    pillar; the lookup at -1 then returns its rate.  Nothing is reported. *)
Lemma addNode_negative_maturity :
  -1 <= 0 /\
  addNode_outcome emptyCurve (-1) 0.05
  = Returns {| _curveData := [(-1, 0.05)] |} /\
  addNode_outcome emptyCurve (-1) 0.05 <> Fails InvalidMaturity /\
  getZeroRate_outcome {| _curveData := [(-1, 0.05)] |} (-1) = Returns 0.05.
Proof.
  split; [lra|]. split; [reflexivity|]. split; [discriminate|].
  unfold getZeroRate_outcome. f_equal.
  apply (getZeroRate_first {| _curveData := [(-1, 0.05)] |} (-1) (-1, 0.05) []
           eq_refl).
  simpl. lra.
Qed.

(** C6, amended.  [addNode] checks nothing: for every maturity, positive or
    not, it returns normally with the pillar [(maturity, rate)] stored, keeps
    the pillars in increasing order, and the lookup at that maturity then
    returns the rate; the lookup itself returns for every argument. *)
Theorem addNode_any_maturity (c : ZeroCurve R) (time rate : R) :
  addNode_outcome c time rate = Returns (addNode c time rate) /\
  In (time, rate) (getCurve (addNode c time rate)) /\
  (map_ok (getCurve c) ->
   map_ok (getCurve (addNode c time rate)) /\
   getZeroRate (addNode c time rate) time = rate) /\
  (forall t, getZeroRate_outcome c t = Returns (getZeroRate c t)).
Proof.
  split; [reflexivity|]. split; [apply map_assign_In|]. split; [|reflexivity].
  intros Hok.
  assert (Hok' : map_ok (getCurve (addNode c time rate)))
    by (apply map_assign_ok; exact Hok).
  split; [exact Hok'|].
  apply getZeroRate_pillar; [exact Hok' | apply map_assign_In].
Qed.

(** * The bootstrapper *)

(** ** The discount factor of a new pillar *)

(** C2.  When the quote [(T, S)] is reached and [T] is not yet a pillar of
    the curve built so far, the step computes
    [DF_T = (1 - sumCoupons) / (1 + tau_last * S)] with [sumCoupons] the sum
    of [S * tau * DF(i * tau)] over the coupon dates [i >= 1], [i * tau < T],
    read from that curve, and [tau_last = T - floor(T / tau) * tau]; it adds
    the pillar
    [(T, -ln(DF_T) / T)] (rate 0 when [DF_T <= 0]), which is part of the
    finished curve, and on a well-formed seed with [DF_T > 0] the finished
    curve discounts [T] by exactly [DF_T].  [tau_last] is 0 when [T] is a
    multiple of [tau]. *)
Theorem calibrate_step_discount
    (seed : ZeroCurve R) (qs1 qs2 : list SwapQuote) (q : SwapQuote) :
  let curve := fold_left calibrate_step qs1 seed in
  let T := maturity q in
  let S := rate q in
  let DF_T := (1 - spec_sumCoupons curve T S) / (1 + spec_tau_last T * S) in
  let final := calibrate {| _quotes := qs1 ++ q :: qs2 |} seed in
  map_count (getCurve curve) T = 0%nat ->
  step_df curve T S = DF_T /\
  calibrate_step curve q = addNode curve T (step_rate DF_T T) /\
  In (T, step_rate DF_T T) (getCurve final) /\
  (map_ok (getCurve seed) -> 0 < DF_T -> T <> 0 ->
   getDiscountFactor final T = DF_T) /\
  (forall i, In i (coupon_dates T) <-> (1 <= i)%nat /\ INR i * FIXED_TAU < T) /\
  (forall k : Z, T = IZR k * FIXED_TAU -> spec_tau_last T = 0).
Proof.
  intros curve T S DF_T final Hfresh.
  assert (Hdf : step_df curve T S = DF_T) by apply step_df_spec.
  rewrite <- Hdf. split; [reflexivity|].
  split; [apply calibrate_step_add; exact Hfresh|].
  split; [apply calibrate_new_pillar; exact Hfresh|].
  split; [|split].
  - intros Hok Hpos HT. apply calibrate_new_discount; assumption.
  - intros i. apply coupon_dates_spec.
  - intros k. apply spec_tau_last_on_grid.
Qed.

Lemma calibrate_step_discount_witness :
  step_df emptyCurve 1 0.02
  = (1 - spec_sumCoupons emptyCurve 1 0.02) / (1 + spec_tau_last 1 * 0.02).
Proof.
  exact (proj1 (calibrate_step_discount emptyCurve [] []
                  {| maturity := 1; rate := 0.02 |} eq_refl)).
Defined.

(** ** A discount factor that is not positive *)

Lemma steep_quote_df : step_df emptyCurve 1.5 2 = -1.
Proof.
  unfold step_df. cbv zeta.
  replace 1.5 with (IZR 3 * FIXED_TAU) by (unfold FIXED_TAU; lra).
  rewrite sumDiscountedCoupons_empty by lia. rewrite last_period_on_grid.
  unfold FIXED_TAU. simpl. lra.
Qed.

(** C5, as stated, fails.  For the quote (1.5, 2) on the empty curve the step
    finds the discount factor -1; [calibrate] returns the curve with the
    pillar (1.5, 0) and reports no error. *)
Lemma calibrate_nonpositive_df_returns :
  step_df emptyCurve (maturity steep_quote) (rate steep_quote) <= 0 /\
  calibrate_outcome (newBootstrapper [steep_quote]) emptyCurve
  = Returns {| _curveData := [(1.5, 0)] |} /\
  calibrate_outcome (newBootstrapper [steep_quote]) emptyCurve
  <> Fails NonPositiveDiscountFactor.
Proof.
  assert (Hdf : step_df emptyCurve 1.5 2 = -1) by apply steep_quote_df.
  split; [simpl; lra|].
  assert (Hrun : calibrate (newBootstrapper [steep_quote]) emptyCurve
                 = {| _curveData := [(1.5, 0)] |}).
  { unfold calibrate, newBootstrapper. simpl.
    rewrite calibrate_step_add by reflexivity. simpl maturity. simpl rate.
    rewrite Hdf. unfold step_rate. rewrite Rltb_ge by lra.
    unfold addNode. simpl. f_equal. f_equal. f_equal. lra. }
  unfold calibrate_outcome. rewrite Hrun. split; [reflexivity | discriminate].
Qed.

(** C5, amended.  When a step finds a discount factor that is not positive it
    stores the zero rate 0.0 for that maturity and the calibration goes on:
    the pillar [(T, 0)] is in the curve that [calibrate] returns, and no
    error is reported. *)
Theorem calibrate_nonpositive_df
    (seed : ZeroCurve R) (qs1 qs2 : list SwapQuote) (q : SwapQuote) :
  let curve := fold_left calibrate_step qs1 seed in
  let b := {| _quotes := qs1 ++ q :: qs2 |} in
  map_count (getCurve curve) (maturity q) = 0%nat ->
  step_df curve (maturity q) (rate q) <= 0 ->
  calibrate_step curve q = addNode curve (maturity q) 0 /\
  In (maturity q, 0) (getCurve (calibrate b seed)) /\
  calibrate_outcome b seed = Returns (calibrate b seed).
Proof.
  intros curve b Hfresh Hdf.
  assert (Hstep : calibrate_step curve q = addNode curve (maturity q) 0).
  { rewrite calibrate_step_add by exact Hfresh.
    unfold step_rate. rewrite Rltb_ge by exact Hdf.
    f_equal. lra. }
  split; [exact Hstep|]. split; [|reflexivity].
  unfold b, calibrate. simpl _quotes. rewrite fold_left_app. simpl.
  fold curve. apply calibrate_keeps. rewrite Hstep. apply map_assign_In.
Qed.

Lemma calibrate_nonpositive_df_witness :
  In (1.5, 0) (getCurve (calibrate {| _quotes := [steep_quote] |} emptyCurve)).
Proof.
  refine (proj1 (proj2 (calibrate_nonpositive_df emptyCurve [] [] steep_quote
                          eq_refl _))).
  simpl. rewrite steep_quote_df. lra.
Defined.

(** ** Calibrating again, and what calibration leaves in place *)

(** C7.  Calibrating the calibrated curve again with the same quotes changes
    nothing: every quote maturity is then a pillar, so every quote is
    skipped. *)
Theorem calibrate_idempotent (b : Bootstrapper) (seed : ZeroCurve R) :
  calibrate b (calibrate b seed) = calibrate b seed /\
  (forall q, In q (_quotes b) ->
     calibrate_step (calibrate b seed) q = calibrate b seed).
Proof.
  assert (Hall : forall q, In q (_quotes b) ->
                   has_pillar (calibrate b seed) (maturity q)).
  { intros q Hq. apply calibrate_has_quotes. exact Hq. }
  split.
  - unfold calibrate at 1. apply calibrate_all_skipped. exact Hall.
  - intros q Hq. apply calibrate_step_skip. apply Hall. exact Hq.
Qed.

(** C8.  [calibrate] works on its own copy: the result is a value computed
    from the seed, which stays as it was.  Every pillar of the seed is in the
    result with the same maturity and rate, and every other pillar of the
    result sits at the maturity of a quote that was not a pillar of the
    seed. *)
Theorem calibrate_frame (b : Bootstrapper) (seed : ZeroCurve R) :
  (forall t r, In (t, r) (getCurve seed) ->
     In (t, r) (getCurve (calibrate b seed))) /\
  (forall t r, In (t, r) (getCurve (calibrate b seed)) ->
     In (t, r) (getCurve seed) \/
     exists q, In q (_quotes b) /\ maturity q = t /\
               map_count (getCurve seed) t = 0%nat).
Proof.
  split.
  - intros t r Hin. apply calibrate_keeps. exact Hin.
  - intros t r Hin. apply calibrate_new in Hin as [Hold | (q & Hq & Hfst & Hnew)].
    + left. exact Hold.
    + right. exists q. simpl in Hfst. subst t. repeat split; [exact Hq|].
      unfold has_pillar in Hnew.
      destruct (map_count (getCurve seed) (maturity q)); [reflexivity|].
      exfalso. apply Hnew. discriminate.
Qed.

(** * The pricer *)

(** ** The fair rate *)

(** C9.  [calculateFaireRate] returns 0 when the annuity is below 1e-8 and
    [(1 - DF(T)) / annuity] otherwise. *)
Theorem calculateFaireRate_spec (curve : ZeroCurve R) (T : R) :
  (annuity curve T < 1e-8 -> calculateFaireRate curve T = 0) /\
  (1e-8 <= annuity curve T ->
   calculateFaireRate curve T
   = (1 - getDiscountFactor curve T) / annuity curve T).
Proof.
  unfold calculateFaireRate. cbv zeta.
  case_ltb (annuity curve T) 1e-8; split; intros Hc; try lra; reflexivity.
Qed.

(** C10.  With an annuity of at least 1e-8 the price of a swap is
    [(fair rate - fixed rate) * annuity]; at the fair rate it is 0. *)
Theorem priceSwap_fair_rate (curve : ZeroCurve R) (T : R) :
  1e-8 <= annuity curve T ->
  (forall x, priceSwap curve T x
             = (calculateFaireRate curve T - x) * annuity curve T) /\
  priceSwap curve T (calculateFaireRate curve T) = 0.
Proof.
  intros HA.
  assert (Hgen : forall x, priceSwap curve T x
                           = (calculateFaireRate curve T - x) * annuity curve T).
  { intros x. unfold priceSwap, calculateFaireRate. cbv zeta.
    rewrite Rltb_ge by exact HA.
    assert (Hpos : annuity curve T <> 0) by lra.
    field. exact Hpos. }
  split; [exact Hgen|]. rewrite Hgen. ring.
Qed.

Lemma priceSwap_fair_rate_witness :
  priceSwap emptyCurve (IZR 2 * FIXED_TAU)
    (calculateFaireRate emptyCurve (IZR 2 * FIXED_TAU)) = 0.
Proof.
  refine (proj2 (priceSwap_fair_rate emptyCurve (IZR 2 * FIXED_TAU) _)).
  rewrite annuity_empty by lia. unfold FIXED_TAU. simpl. lra.
Defined.

(** ** Re-pricing a calibrated quote *)

(** A bootstrapped quote re-prices to exactly 0 on the finished curve when
    every coupon date before its maturity already was a pillar of the curve
    when the quote was reached: bootstrapper and pricer then read the same
    discount factors. *)
Lemma reprice_on_pillars
    (seed : ZeroCurve R) (qs1 qs2 : list SwapQuote) (q : SwapQuote) :
  let curve := fold_left calibrate_step qs1 seed in
  let final := calibrate {| _quotes := qs1 ++ q :: qs2 |} seed in
  map_ok (getCurve seed) ->
  map_count (getCurve curve) (maturity q) = 0%nat ->
  (forall i, In i (coupon_dates (maturity q)) ->
             has_pillar curve (FIXED_TAU * INR i)) ->
  0 < step_df curve (maturity q) (rate q) ->
  maturity q <> 0 ->
  1 + last_period (maturity q) * rate q <> 0 ->
  priceSwap final (maturity q) (rate q) = 0.
Proof.
  intros curve final Hok Hfresh Hdense Hdf HT Hden.
  set (T := maturity q) in *. set (S := rate q) in *.
  assert (Hokc : map_ok (getCurve curve)) by (apply calibrate_ok; exact Hok).
  assert (Hfinal : final = fold_left calibrate_step qs2 (calibrate_step curve q)).
  { unfold final, calibrate. simpl _quotes. rewrite fold_left_app. reflexivity. }
  assert (HdfT : getDiscountFactor final T = step_df curve T S).
  { apply calibrate_new_discount; assumption. }
  assert (Hgrid : forall i, In i (coupon_dates T) ->
            getDiscountFactor final (FIXED_TAU * INR i)
            = getDiscountFactor curve (FIXED_TAU * INR i)).
  { intros i Hi. rewrite Hfinal.
    change (fold_left calibrate_step qs2 (calibrate_step curve q))
      with (fold_left calibrate_step (q :: qs2) curve).
    apply pillar_discount_kept; [exact Hokc | apply Hdense; exact Hi]. }
  rewrite priceSwap_eq, annuity_eq, HdfT.
  rewrite (Rsum_ext _ (fun j => FIXED_TAU * getDiscountFactor curve (FIXED_TAU * INR j)))
    by (intros j Hj; rewrite Hgrid by exact Hj; reflexivity).
  unfold step_df. cbv zeta. replace 1.0 with 1 by lra.
  rewrite sumDiscountedCoupons_eq.
  rewrite (Rsum_ext _ (fun j => S * (FIXED_TAU * getDiscountFactor curve (FIXED_TAU * INR j))))
    by (intros j _; ring).
  rewrite Rsum_scale.
  set (A := Rsum _ _). fold T S in Hden. field. exact Hden.
Qed.

(** ** Re-pricing the quotes of [main] *)

Lemma main_curve_half_year : getDiscountFactor main_curve 0.5 = df_0_5.
Proof.
  assert (Hin : In (0.5, r_0_5) (getCurve main_curve)).
  { apply calibrate_keeps. apply map_assign_In. }
  assert (Hok : map_ok (getCurve main_curve)).
  { apply calibrate_ok. apply map_assign_ok, map_ok_nil. }
  unfold getDiscountFactor. rewrite (getZeroRate_pillar main_curve 0.5 r_0_5 Hok Hin).
  unfold r_0_5, ZCB_TAU.
  replace (- (- ln df_0_5 / 0.5) * 0.5) with (ln df_0_5) by lra.
  apply exp_ln. unfold df_0_5, zcb_0_5_rate, ZCB_TAU. lra.
Qed.

(** The half-year quote of [main] is skipped as already a pillar, and the
    pricer's last period has length 0 on the grid: the annuity is 0 and the
    price is [1 - DF(0.5)]. *)
Lemma main_half_year_price :
  priceSwap main_curve 0.5 zcb_0_5_rate = 1 - 1 / 1.005.
Proof.
  rewrite priceSwap_eq, annuity_half_year, main_curve_half_year.
  unfold df_0_5, zcb_0_5_rate, ZCB_TAU. lra.
Qed.

Lemma sort_marketData : sort_quotes marketData = marketData.
Proof.
  unfold marketData, sort_quotes, zcb_0_5_rate.
  repeat (progress (cbn [fold_right insert_quote maturity rate]; eval_ltb)).
  reflexivity.
Qed.

Lemma df_0_5_value : df_0_5 = 1 / 1.005.
Proof. unfold df_0_5, zcb_0_5_rate, ZCB_TAU. lra. Qed.

Lemma df_1_bounds : 0.9925 < df_1 < 0.9926.
Proof. unfold df_1. rewrite df_0_5_value. lra. Qed.

Lemma r_1_bounds : 0.0074 < r_1 < 0.0076.
Proof.
  pose proof df_1_bounds as [Hlo Hhi]. unfold r_1.
  pose proof (ln_upper df_1 ltac:(lra)) as Hu.
  pose proof (ln_lower df_1 ltac:(lra)) as Hl.
  assert (Hinv : / df_1 < 1.0076).
  { apply (Rmult_lt_reg_l df_1); [lra|]. rewrite Rinv_r by lra. nra. }
  lra.
Qed.

Lemma df_1_5_flat_bounds : 0.9886 < df_1_5_flat < 1.
Proof.
  pose proof r_1_bounds as [Hlo Hhi]. unfold df_1_5_flat. split.
  - pose proof (exp_lower (- r_1 * 1.5)). lra.
  - rewrite <- exp_0. apply exp_increasing. lra.
Qed.

Lemma df_2_bounds : 0.9716 < df_2 < 0.9718.
Proof.
  pose proof df_1_bounds. pose proof df_1_5_flat_bounds.
  unfold df_2. rewrite df_0_5_value. lra.
Qed.

Lemma r_2_bounds : 0.0141 < r_2.
Proof.
  pose proof df_2_bounds as [Hlo Hhi]. unfold r_2.
  pose proof (ln_upper df_2 ltac:(lra)) as Hu. lra.
Qed.

Lemma df_1_5_interp_bound : df_1_5_interp < 0.9842.
Proof.
  pose proof r_1_bounds. pose proof r_2_bounds. unfold df_1_5_interp.
  apply Rle_lt_trans with (exp (Ropp 0.0161)).
  - apply exp_le. replace (2.0 - 1.0) with 1 by lra. lra.
  - pose proof (exp_upper_neg 0.0161 ltac:(lra)) as Hu.
    apply (Rle_lt_trans _ _ _ Hu).
    apply (Rmult_lt_reg_l (1 + 0.0161)); [lra|]. rewrite Rinv_r by lra. lra.
Qed.

Lemma main_seed_data : getCurve main_seed = [(0.5, r_0_5)].
Proof. reflexivity. Qed.

Lemma exp_r_0_5 : exp (- r_0_5 * 0.5) = df_0_5.
Proof.
  unfold r_0_5, ZCB_TAU.
  replace (- (- ln df_0_5 / 0.5) * 0.5) with (ln df_0_5) by lra.
  apply exp_ln. rewrite df_0_5_value. lra.
Qed.

Lemma exp_r_1 : exp (- r_1 * 1.0) = df_1.
Proof.
  unfold r_1.
  replace (- (- ln df_1 / 1.0) * 1.0) with (ln df_1) by lra.
  apply exp_ln. pose proof df_1_bounds. lra.
Qed.

Lemma exp_r_2 : exp (- r_2 * 2.0) = df_2.
Proof.
  unfold r_2.
  replace (- (- ln df_2 / 2.0) * 2.0) with (ln df_2) by lra.
  apply exp_ln. pose proof df_2_bounds. lra.
Qed.

(** The first quote is skipped. *)
Lemma main_step_0 :
  calibrate_step main_seed {| maturity := 0.5; rate := zcb_0_5_rate |} = main_seed.
Proof.
  apply calibrate_step_skip. unfold has_pillar. rewrite main_seed_data.
  cbn [maturity]. eval_map. discriminate.
Qed.

Lemma coupon_dates_1 : coupon_dates 1.0 = [1%nat].
Proof.
  unfold coupon_dates.
  replace 1.0 with (IZR 2 * FIXED_TAU) by (unfold FIXED_TAU; lra).
  rewrite full_periods_on_grid. reflexivity.
Qed.

Lemma coupon_dates_2 : coupon_dates 2.0 = [1%nat; 2%nat; 3%nat].
Proof.
  unfold coupon_dates.
  replace 2.0 with (IZR 4 * FIXED_TAU) by (unfold FIXED_TAU; lra).
  rewrite full_periods_on_grid. reflexivity.
Qed.

Lemma last_period_1 : last_period 1.0 = 0.
Proof.
  replace 1.0 with (IZR 2 * FIXED_TAU) by (unfold FIXED_TAU; lra).
  apply last_period_on_grid.
Qed.

Lemma last_period_2 : last_period 2.0 = 0.
Proof.
  replace 2.0 with (IZR 4 * FIXED_TAU) by (unfold FIXED_TAU; lra).
  apply last_period_on_grid.
Qed.

Lemma grid_1 : FIXED_TAU * INR 1 = 0.5.
Proof. unfold FIXED_TAU. simpl. lra. Qed.

Lemma grid_2 : FIXED_TAU * INR 2 = 1.0.
Proof. unfold FIXED_TAU. simpl. lra. Qed.

Lemma grid_3 : FIXED_TAU * INR 3 = 1.5.
Proof. unfold FIXED_TAU. simpl. lra. Qed.

(** The one-year step. *)
Lemma main_seed_df_0_5 : getDiscountFactor main_seed 0.5 = df_0_5.
Proof.
  unfold getDiscountFactor.
  rewrite (proj1 (getZeroRate_first main_seed 0.5 (0.5, r_0_5) [] eq_refl
                    ltac:(simpl; lra))).
  apply exp_r_0_5.
Qed.

Lemma main_step_df_1 : step_df main_seed 1.0 0.0150 = df_1.
Proof.
  unfold step_df. cbv zeta.
  rewrite sumDiscountedCoupons_eq, coupon_dates_1, last_period_1.
  cbn [Rsum fold_right]. rewrite grid_1, main_seed_df_0_5.
  unfold df_1, FIXED_TAU. lra.
Qed.

Lemma main_step_1 :
  calibrate_step main_seed {| maturity := 1.0; rate := 0.0150 |} = main_curve_1.
Proof.
  rewrite calibrate_step_add.
  - cbn [maturity rate]. rewrite main_step_df_1.
    unfold step_rate. pose proof df_1_bounds. rewrite Rltb_lt by lra.
    unfold main_curve_1, main_seed, ZCB_TAU. eval_map. reflexivity.
  - cbn [maturity]. unfold main_seed, ZCB_TAU. eval_map. reflexivity.
Qed.

(** The two-year step reads DF(1.5) by flat extrapolation of the one-year
    rate. *)
Lemma main_curve_1_df_0_5 : getDiscountFactor main_curve_1 0.5 = df_0_5.
Proof.
  unfold getDiscountFactor.
  rewrite (proj1 (getZeroRate_first main_curve_1 0.5 (0.5, r_0_5) [(1.0, r_1)]
                    eq_refl ltac:(simpl; lra))).
  apply exp_r_0_5.
Qed.

Lemma main_curve_1_df_1 : getDiscountFactor main_curve_1 1.0 = df_1.
Proof.
  unfold getDiscountFactor.
  rewrite (proj1 (getZeroRate_between main_curve_1 1.0 [] (0.5, r_0_5) (1.0, r_1) []
                    eq_refl (Forall_nil _) ltac:(simpl; lra) ltac:(simpl; lra))).
  cbn [fst snd]. rewrite interpolation_at_knot by lra. apply exp_r_1.
Qed.

Lemma main_curve_1_df_1_5 : getDiscountFactor main_curve_1 1.5 = df_1_5_flat.
Proof.
  unfold getDiscountFactor.
  rewrite (proj1 (getZeroRate_after main_curve_1 1.5 [(0.5, r_0_5)] (1.0, r_1)
                    eq_refl
                    ltac:(repeat constructor; unfold below; simpl; lra))).
  reflexivity.
Qed.

Lemma main_step_df_2 : step_df main_curve_1 2.0 0.0190 = df_2.
Proof.
  unfold step_df. cbv zeta.
  rewrite sumDiscountedCoupons_eq, coupon_dates_2, last_period_2.
  cbn [Rsum fold_right]. rewrite grid_1, grid_2, grid_3.
  rewrite main_curve_1_df_0_5, main_curve_1_df_1, main_curve_1_df_1_5.
  unfold df_2, FIXED_TAU. lra.
Qed.

Lemma main_step_2 :
  calibrate_step main_curve_1 {| maturity := 2.0; rate := 0.0190 |} = main_curve_2.
Proof.
  rewrite calibrate_step_add.
  - cbn [maturity rate]. rewrite main_step_df_2.
    unfold step_rate. pose proof df_2_bounds. rewrite Rltb_lt by lra.
    unfold main_curve_2, main_curve_1. eval_map. reflexivity.
  - cbn [maturity]. unfold main_curve_1. eval_map. reflexivity.
Qed.

(** The one-year quote of [main] re-prices to 0: its only coupon date, the
    half year, is the pillar of the seed. *)
Lemma main_one_year_price : priceSwap main_curve 1.0 0.0150 = 0.
Proof.
  assert (Hrun : main_curve
                 = calibrate {| _quotes :=
                      [ {| maturity := 0.5; rate := zcb_0_5_rate |} ]
                      ++ {| maturity := 1.0; rate := 0.0150 |}
                      :: [ {| maturity := 2.0; rate := 0.0190 |};
                           {| maturity := 3.0; rate := 0.0240 |};
                           {| maturity := 5.0; rate := 0.0315 |};
                           {| maturity := 6.0; rate := 0.0400 |} ] |} main_seed).
  { unfold main_curve, main_solver, newBootstrapper.
    rewrite sort_marketData. reflexivity. }
  rewrite Hrun.
  apply (reprice_on_pillars main_seed
           [ {| maturity := 0.5; rate := zcb_0_5_rate |} ] _
           {| maturity := 1.0; rate := 0.0150 |});
    cbn [fold_left maturity rate]; rewrite ?main_step_0.
  - apply map_assign_ok, map_ok_nil.
  - unfold main_seed, ZCB_TAU. eval_map. reflexivity.
  - rewrite coupon_dates_1. intros i [<- | []]. rewrite grid_1.
    unfold has_pillar, main_seed, ZCB_TAU. eval_map. discriminate.
  - rewrite main_step_df_1. pose proof df_1_bounds. lra.
  - lra.
  - rewrite last_period_1. lra.
Qed.

(** The later quotes add pillars behind these three. *)
Lemma main_curve_data :
  exists rest, getCurve main_curve = [(0.5, r_0_5); (1.0, r_1); (2.0, r_2)] ++ rest.
Proof.
  unfold main_curve, calibrate, main_solver, newBootstrapper. cbn [_quotes].
  rewrite sort_marketData. unfold marketData. cbn [fold_left].
  rewrite main_step_0, main_step_1, main_step_2.
  apply (calibrate_prefix
           [ {| maturity := 3.0; rate := 0.0240 |};
             {| maturity := 5.0; rate := 0.0315 |};
             {| maturity := 6.0; rate := 0.0400 |} ]
           main_curve_2 _ [] (eq_sym (app_nil_r _))).
  repeat constructor; unfold below; simpl; lra.
Qed.

Lemma main_curve_df_1 : getDiscountFactor main_curve 1.0 = df_1.
Proof.
  destruct main_curve_data as [rest Heq]. unfold getDiscountFactor.
  rewrite (proj1 (getZeroRate_between main_curve 1.0 [] (0.5, r_0_5) (1.0, r_1)
                    ((2.0, r_2) :: rest)
                    Heq (Forall_nil _) ltac:(simpl; lra) ltac:(simpl; lra))).
  cbn [fst snd]. rewrite interpolation_at_knot by lra. apply exp_r_1.
Qed.

Lemma main_curve_df_1_5 : getDiscountFactor main_curve 1.5 = df_1_5_interp.
Proof.
  destruct main_curve_data as [rest Heq]. unfold getDiscountFactor.
  rewrite (proj1 (getZeroRate_between main_curve 1.5 [(0.5, r_0_5)] (1.0, r_1)
                    (2.0, r_2) rest Heq
                    ltac:(repeat constructor; unfold below; simpl; lra)
                    ltac:(simpl; lra) ltac:(simpl; lra))).
  reflexivity.
Qed.

Lemma main_curve_df_2 : getDiscountFactor main_curve 2.0 = df_2.
Proof.
  destruct main_curve_data as [rest Heq]. unfold getDiscountFactor.
  rewrite (proj1 (getZeroRate_between main_curve 2.0 [(0.5, r_0_5)] (1.0, r_1)
                    (2.0, r_2) rest Heq
                    ltac:(repeat constructor; unfold below; simpl; lra)
                    ltac:(simpl; lra) ltac:(simpl; lra))).
  cbn [fst snd]. rewrite interpolation_at_knot by lra. apply exp_r_2.
Qed.

Lemma main_two_year_price :
  priceSwap main_curve 2.0 0.0190 = 0.0190 * 0.5 * (df_1_5_flat - df_1_5_interp) /\
  4e-5 < priceSwap main_curve 2.0 0.0190.
Proof.
  assert (Hp : priceSwap main_curve 2.0 0.0190
               = 0.0190 * 0.5 * (df_1_5_flat - df_1_5_interp)).
  { rewrite priceSwap_eq, annuity_eq, coupon_dates_2, last_period_2.
    cbn [Rsum fold_right]. rewrite grid_1, grid_2, grid_3.
    rewrite main_curve_half_year, main_curve_df_1, main_curve_df_1_5, main_curve_df_2.
    unfold df_2, FIXED_TAU. lra. }
  split; [exact Hp|]. rewrite Hp.
  pose proof df_1_5_flat_bounds. pose proof df_1_5_interp_bound. lra.
Qed.

(** C1 on the program's own run.  [main] seeds the curve with the half-year
    pillar, calibrates on [marketData] and prints the price of every quote
    with the note that it should be near 0.  On the calibrated curve the
    half-year quote has the price [1 - 1 / 1.005], about 0.005, and the
    two-year quote the price [0.019 * 0.5 * (DF_flat(1.5) - DF_interp(1.5))],
    above 0.00004: the bootstrapper read the discount factor at a year and a
    half from the curve without the two-year pillar, the pricer reads it from
    the curve with it.  (The one-year quote does re-price to 0,
    [main_one_year_price].) *)
Theorem main_reprice :
  In {| maturity := 0.5; rate := zcb_0_5_rate |} marketData /\
  In {| maturity := 2.0; rate := 0.0190 |} marketData /\
  priceSwap main_curve 0.5 zcb_0_5_rate = 1 - 1 / 1.005 /\
  1e-9 < Rabs (priceSwap main_curve 0.5 zcb_0_5_rate) /\
  priceSwap main_curve 2.0 0.0190
  = 0.0190 * 0.5 * (df_1_5_flat - df_1_5_interp) /\
  1e-9 < Rabs (priceSwap main_curve 2.0 0.0190).
Proof.
  split; [left; reflexivity|].
  split; [right; right; left; reflexivity|].
  split; [apply main_half_year_price|].
  split; [rewrite main_half_year_price, Rabs_pos_eq; lra|].
  destruct main_two_year_price as [Hp Hlow].
  split; [exact Hp|]. rewrite Rabs_pos_eq; lra.
Qed.

(** * Further properties of the program *)

(** ** Adding nodes *)

Ltac fold_ltb :=
  repeat match goal with
         | |- context [nltb ?a ?b] => change (nltb a b) with (Rltb a b)
         end.

Lemma map_assign_twice (m : dmap R) (k v1 v2 : R) :
  map_assign (map_assign m k v1) k v2 = map_assign m k v2.
Proof.
  induction m as [|[k' v'] m IH]; simpl.
  - change (nltb k k) with (Rltb k k). rewrite Rltb_ge by lra. reflexivity.
  - change (nltb k k') with (Rltb k k'). change (nltb k' k) with (Rltb k' k).
    case_ltb k k'; simpl.
    + change (nltb k k) with (Rltb k k). rewrite Rltb_ge by lra. reflexivity.
    + case_ltb k' k; simpl;
        change (nltb k k') with (Rltb k k'); change (nltb k' k) with (Rltb k' k).
      * rewrite (Rltb_ge k k') by lra. rewrite (Rltb_lt k' k) by lra.
        rewrite IH. reflexivity.
      * rewrite (Rltb_ge k k') by lra. rewrite (Rltb_ge k' k) by lra. reflexivity.
Qed.

Lemma map_assign_length (m : dmap R) (k v : R) :
  length (map_assign m k v)
  = (if Nat.eqb (map_count m k) 0 then S (length m) else length m).
Proof.
  induction m as [|[k' v'] m IH]; simpl; [reflexivity|].
  change (nltb k k') with (Rltb k k'). change (nltb k' k) with (Rltb k' k).
  case_ltb k k'; simpl; [reflexivity|].
  case_ltb k' k; simpl; [|reflexivity].
  rewrite IH. destruct (Nat.eqb (map_count m k) 0); reflexivity.
Qed.

Lemma map_assign_comm (m : dmap R) (k1 v1 k2 v2 : R) :
  k1 <> k2 ->
  map_assign (map_assign m k1 v1) k2 v2 = map_assign (map_assign m k2 v2) k1 v1.
Proof.
  intros Hne. induction m as [|[k' v'] m IH]; simpl.
  - change (nltb k2 k1) with (Rltb k2 k1). change (nltb k1 k2) with (Rltb k1 k2).
    case_ltb k2 k1; case_ltb k1 k2; try lra; reflexivity.
  - repeat match goal with |- context [nltb ?a ?b] => change (nltb a b) with (Rltb a b) end.
    case_ltb k1 k'; case_ltb k2 k'; simpl;
      repeat match goal with |- context [nltb ?a ?b] => change (nltb a b) with (Rltb a b) end.
    + case_ltb k2 k1; case_ltb k1 k2; try lra; simpl;
        repeat match goal with |- context [nltb ?a ?b] => change (nltb a b) with (Rltb a b) end;
        eval_ltb; reflexivity.
    + rewrite (Rltb_ge k2 k1) by lra. rewrite (Rltb_lt k1 k2) by lra.
      simpl. repeat match goal with |- context [nltb ?a ?b] => change (nltb a b) with (Rltb a b) end.
      rewrite (Rltb_ge k2 k') by lra.
      case_ltb k' k2; simpl;
        repeat match goal with |- context [nltb ?a ?b] => change (nltb a b) with (Rltb a b) end;
        eval_ltb; reflexivity.
    + case_ltb k' k1; simpl;
        repeat match goal with |- context [nltb ?a ?b] => change (nltb a b) with (Rltb a b) end;
        eval_ltb; reflexivity.
    + case_ltb k' k1; case_ltb k' k2; simpl;
        repeat match goal with |- context [nltb ?a ?b] => change (nltb a b) with (Rltb a b) end;
        eval_ltb; try rewrite IH; try reflexivity; lra.
Qed.

Lemma map_assign_other (m : dmap R) (k v : R) (p : R * R) :
  In p m -> fst p <> k -> In p (map_assign m k v).
Proof.
  induction m as [|[k' v'] m IH]; simpl; [intros []|].
  fold_ltb. case_ltb k k'; [simpl; auto|].
  case_ltb k' k.
  - intros [<- | Hin] Hne; simpl; auto.
  - intros [<- | Hin] Hne; simpl; [simpl in Hne; lra | auto].
Qed.

Lemma map_ok_NoDup_keys (m : dmap R) : map_ok m -> NoDup (map fst m).
Proof.
  induction 1 as [|p m Hs IH Hall]; simpl; constructor; [|exact IH].
  intros Hin. apply in_map_iff in Hin as (x & Hx & Hin).
  rewrite Forall_forall in Hall. specialize (Hall x Hin).
  unfold key_lt in Hall. lra.
Qed.

Lemma map_assign_unique (m : dmap R) (k v v0 : R) :
  map_ok m -> In (k, v0) (map_assign m k v) -> v0 = v.
Proof.
  intros Hok Hin.
  pose proof (map_assign_ok m k v Hok) as Hok'.
  pose proof (map_assign_In m k v) as Hnew.
  apply map_ok_NoDup_keys in Hok'.
  destruct (Req_dec v0 v) as [Heq | Hne]; [exact Heq|].
  exfalso.
  apply in_split in Hin as (l1 & l2 & Hsplit).
  rewrite Hsplit in Hnew, Hok'.
  rewrite map_app in Hok'. simpl in Hok'.
  apply NoDup_remove_2 in Hok'. apply Hok'.
  apply in_app_or in Hnew as [Hnew | [Heq | Hnew]].
  - apply in_or_app. left. apply (in_map fst) in Hnew. exact Hnew.
  - inversion Heq. congruence.
  - apply in_or_app. right. apply (in_map fst) in Hnew. exact Hnew.
Qed.

(** X1.  Adding a node twice at one maturity is adding the second one: the
    first rate is overwritten, no pillar is added by the second call, and
    pillars at other maturities stay.  The pillar stored at that maturity
    carries the second rate, and on a curve with increasing maturities it is
    the only pillar there. *)
Theorem addNode_overwrite (c : ZeroCurve R) (t r1 r2 : R) :
  addNode (addNode c t r1) t r2 = addNode c t r2 /\
  length (getCurve (addNode (addNode c t r1) t r2))
  = length (getCurve (addNode c t r1)) /\
  (forall t' r', In (t', r') (getCurve c) -> t' <> t ->
     In (t', r') (getCurve (addNode c t r1))) /\
  In (t, r2) (getCurve (addNode (addNode c t r1) t r2)) /\
  (map_ok (getCurve c) ->
   forall r, In (t, r) (getCurve (addNode (addNode c t r1) t r2)) -> r = r2).
Proof.
  assert (Heq : addNode (addNode c t r1) t r2 = addNode c t r2).
  { unfold addNode. simpl. rewrite map_assign_twice. reflexivity. }
  split; [exact Heq|]. split; [|split; [|split]].
  - unfold addNode, getCurve. simpl. rewrite map_assign_length.
    rewrite map_count_assign_same. reflexivity.
  - intros t' r' Hin Hne. apply map_assign_other; assumption.
  - apply map_assign_In.
  - intros Hok r Hin. rewrite Heq in Hin.
    apply (map_assign_unique (getCurve c) t r2 r Hok Hin).
Qed.

(** X2.  Nodes at different maturities can be added in either order: the
    curve is the same. *)
Theorem addNode_commute (c : ZeroCurve R) (t1 r1 t2 r2 : R) :
  t1 <> t2 ->
  addNode (addNode c t1 r1) t2 r2 = addNode (addNode c t2 r2) t1 r1.
Proof.
  intros Hne. unfold addNode. simpl. rewrite (map_assign_comm _ t1 r1 t2 r2 Hne).
  reflexivity.
Qed.

Lemma addNode_commute_witness :
  addNode (addNode emptyCurve 1 0.01) 3 0.03
  = addNode (addNode emptyCurve 3 0.03) 1 0.01.
Proof. apply (addNode_commute emptyCurve 1 0.01 3 0.03). lra. Defined.

(** ** The lookup outside and between the pillars *)

Section AnyArithmetic.
Context {A : Type} `{Arith A}.

Lemma map_lower_bound_all (m : dmap A) (t : A) :
  Forall (fun p => nltb (fst p) t = true) m -> map_lower_bound m t = length m.
Proof.
  induction 1 as [|[k v] m Hk _ IH]; simpl; [reflexivity|].
  simpl in Hk. rewrite Hk, IH. reflexivity.
Qed.

(** X3.  Outside the pillars the lookup returns a stored rate as it is, in
    any arithmetic and so in that of [double]: the first pillar's rate when
    the first maturity is not below [t] (Case B), the last pillar's rate when
    every maturity is below [t] (Case A).  No arithmetic is done on the
    rate. *)
Theorem getZeroRate_extrapolation_exact (c : ZeroCurve A) (t : A) :
  (forall k0 v0 l, getCurve c = (k0, v0) :: l -> nltb k0 t = false ->
     getZeroRate c t = v0 /\ getZeroRate_case c t = CaseB) /\
  (forall l kn vn, getCurve c = l ++ [(kn, vn)] ->
     Forall (fun p => nltb (fst p) t = true) (l ++ [(kn, vn)]) ->
     getZeroRate c t = vn /\ getZeroRate_case c t = CaseA).
Proof.
  destruct c as [m]. unfold getCurve, getZeroRate, getZeroRate_case. simpl. split.
  - intros k0 v0 l -> Hk. simpl. rewrite Hk. simpl. split; reflexivity.
  - intros l kn vn -> Hall.
    rewrite (map_lower_bound_all _ _ Hall), Nat.eqb_refl.
    assert (Hempty : map_empty (l ++ [(kn, vn)]) = false) by (destruct l; reflexivity).
    rewrite Hempty. unfold map_rbegin. rewrite last_last. split; reflexivity.
Qed.
End AnyArithmetic.

Lemma getZeroRate_extrapolation_exact_witness :
  getZeroRate drift_curve 100%float = 0.04%float /\
  getZeroRate drift_curve 0.25%float = 0.005%float.
Proof.
  split.
  - refine (proj1 (proj2 (getZeroRate_extrapolation_exact drift_curve 100%float)
                     [(1, 0.005); (7, 0.03)]%float 10%float 0.04%float eq_refl _)).
    repeat constructor.
  - exact (proj1 (proj1 (getZeroRate_extrapolation_exact drift_curve 0.25%float)
                    1%float 0.005%float [(7, 0.03); (10, 0.04)]%float eq_refl eq_refl)).
Defined.

Lemma map_lower_bound_decomp (m : dmap R) (t : R) :
  exists l1 l2, m = l1 ++ l2 /\ Forall (below t) l1 /\
                match l2 with [] => True | p :: _ => t <= fst p end.
Proof.
  induction m as [|[k v] m IH].
  - exists [], []. repeat split. constructor.
  - destruct (Rlt_dec k t) as [Hlt | Hge].
    + destruct IH as (l1 & l2 & -> & Hlow & Hhd).
      exists ((k, v) :: l1), l2. repeat split; [|exact Hhd].
      constructor; [exact Hlt | exact Hlow].
    + exists [], ((k, v) :: m). repeat split; [constructor | simpl; lra].
Qed.

Lemma getZeroRate_cases (c : ZeroCurve R) (t : R) :
  getCurve c <> [] ->
  (exists p, In p (getCurve c) /\ getZeroRate c t = snd p) \/
  (exists l0 q p l2,
     getCurve c = l0 ++ q :: p :: l2 /\ fst q < t <= fst p /\
     getZeroRate c t = (snd p - snd q) / (fst p - fst q) * (t - fst q) + snd q).
Proof.
  intros Hne.
  destruct (map_lower_bound_decomp (getCurve c) t) as (l1 & l2 & Heq & Hlow & Hhd).
  destruct l2 as [|p l2].
  - rewrite app_nil_r in Heq. subst l1.
    destruct (split_last (getCurve c)) as [Hnil | (l & p & Hl)]; [contradiction|].
    left. exists p. split; [rewrite Hl; apply in_or_app; right; left; reflexivity|].
    rewrite Hl in Hlow. apply (getZeroRate_after c t l p Hl Hlow).
  - destruct (split_last l1) as [-> | (l0 & q & ->)].
    + left. exists p. split; [rewrite Heq; left; reflexivity|].
      apply (getZeroRate_first c t p l2 Heq Hhd).
    + right. rewrite <- app_assoc in Heq. simpl in Heq.
      apply Forall_app in Hlow as [Hlow0 Hq].
      inversion Hq as [|? ? Hq' _]; subst. unfold below in Hq'.
      exists l0, q, p, l2. split; [exact Heq|]. split; [lra|].
      apply (getZeroRate_between c t l0 q p l2 Heq Hlow0 Hq' Hhd).
Qed.

Lemma interpolation_between (lo hi t1 r1 t2 r2 t : R) :
  t1 < t <= t2 -> lo <= r1 <= hi -> lo <= r2 <= hi ->
  lo <= (r2 - r1) / (t2 - t1) * (t - t1) + r1 <= hi.
Proof.
  intros [Ht1 Ht2] [Hl1 Hh1] [Hl2 Hh2].
  set (w := (t - t1) / (t2 - t1)).
  assert (Hw : 0 < w <= 1).
  { unfold w. split.
    - apply Rdiv_lt_0_compat; lra.
    - apply (Rmult_le_reg_r (t2 - t1)); [lra|].
      unfold Rdiv. rewrite Rmult_assoc, Rinv_l by lra. lra. }
  replace ((r2 - r1) / (t2 - t1) * (t - t1) + r1) with (r1 + w * (r2 - r1))
    by (unfold w; field; lra).
  split; nra.
Qed.

(** X4.  On a curve with pillars the zero rate at any [t] lies between the
    smallest and the largest pillar rate: the lookup never leaves the range
    of the stored rates. *)
Theorem getZeroRate_within_rates (c : ZeroCurve R) (t lo hi : R) :
  getCurve c <> [] ->
  Forall (fun p => lo <= snd p <= hi) (getCurve c) ->
  lo <= getZeroRate c t <= hi.
Proof.
  intros Hne Hall. rewrite Forall_forall in Hall.
  destruct (getZeroRate_cases c t Hne)
    as [(p & Hp & ->) | (l0 & q & p & l2 & Heq & Hbr & ->)].
  - apply Hall. exact Hp.
  - apply interpolation_between; [exact Hbr | |]; apply Hall; rewrite Heq;
      apply in_or_app; right; simpl; auto.
Qed.

Lemma getZeroRate_within_rates_witness :
  0.01 <= getZeroRate two_pillars 2 <= 0.03.
Proof.
  apply (getZeroRate_within_rates two_pillars 2 0.01 0.03).
  - rewrite two_pillars_data. discriminate.
  - rewrite two_pillars_data. repeat constructor; simpl; lra.
Defined.

Lemma lookup_prefix (c c' : ZeroCurve R) (t : R) (l0 rest rest' : dmap R) (p : R * R) :
  getCurve c = l0 ++ p :: rest -> getCurve c' = l0 ++ p :: rest' ->
  Forall (below t) l0 -> t <= fst p ->
  getZeroRate c t = getZeroRate c' t.
Proof.
  intros Heq Heq' Hlow Hp.
  destruct (split_last l0) as [-> | (l & q & ->)].
  - rewrite (proj1 (getZeroRate_first c t p rest Heq Hp)).
    rewrite (proj1 (getZeroRate_first c' t p rest' Heq' Hp)). reflexivity.
  - rewrite <- app_assoc in Heq, Heq'. simpl in Heq, Heq'.
    apply Forall_app in Hlow as [Hlow0 Hq].
    inversion Hq as [|? ? Hq' _]; subst. unfold below in Hq'.
    rewrite (proj1 (getZeroRate_between c t l q p rest Heq Hlow0 Hq' Hp)).
    rewrite (proj1 (getZeroRate_between c' t l q p rest' Heq' Hlow0 Hq' Hp)).
    reflexivity.
Qed.

Lemma lookup_decomp (m : dmap R) (t k0 v0 : R) :
  map_ok m -> In (k0, v0) m -> t <= k0 ->
  exists l0 p rest, m = l0 ++ p :: rest /\ Forall (below t) l0 /\
                    t <= fst p /\ fst p <= k0.
Proof.
  intros Hok Hin Ht.
  destruct (map_lower_bound_decomp m t) as (l1 & l2 & Heq & Hlow & Hhd).
  destruct l2 as [|p l2].
  - rewrite app_nil_r in Heq. subst l1. rewrite Forall_forall in Hlow.
    specialize (Hlow _ Hin). unfold below in Hlow. simpl in Hlow. lra.
  - exists l1, p, l2. repeat split; try assumption.
    subst m. apply in_app_or in Hin as [Hin | [Hpe | Hin]].
    + rewrite Forall_forall in Hlow. specialize (Hlow _ Hin).
      unfold below in Hlow. simpl in Hlow. lra.
    + rewrite Hpe. simpl. lra.
    + apply map_ok_app in Hok as (_ & Hok2 & _). apply map_ok_head in Hok2.
      rewrite Forall_forall in Hok2. specialize (Hok2 _ Hin).
      unfold key_lt in Hok2. simpl in Hok2. lra.
Qed.

(** X5.  Adding a node beyond a pillar leaves every lookup at or before
    that pillar as it was. *)
Theorem getZeroRate_addNode_beyond (c : ZeroCurve R) (t k0 v0 k v : R) :
  map_ok (getCurve c) -> In (k0, v0) (getCurve c) -> t <= k0 -> k0 < k ->
  getZeroRate (addNode c k v) t = getZeroRate c t.
Proof.
  intros Hok Hin Ht Hk.
  destruct (lookup_decomp (getCurve c) t k0 v0 Hok Hin Ht)
    as (l0 & p & rest & Heq & Hlow & Hp & Hpk).
  apply (lookup_prefix (addNode c k v) c t l0 (map_assign rest k v) rest p);
    try assumption.
  unfold addNode, getCurve in *. simpl. rewrite Heq.
  replace (l0 ++ p :: rest) with ((l0 ++ [p]) ++ rest)
    by (rewrite <- app_assoc; reflexivity).
  rewrite map_assign_prefix; [rewrite <- app_assoc; reflexivity|].
  apply Forall_app. split.
  - rewrite Forall_forall in *. intros x Hx. specialize (Hlow x Hx).
    unfold below in *. lra.
  - constructor; [unfold below; lra | constructor].
Qed.

Lemma getZeroRate_addNode_beyond_witness :
  getZeroRate (addNode two_pillars 5 0.07) 2 = getZeroRate two_pillars 2.
Proof.
  apply (getZeroRate_addNode_beyond two_pillars 2 3 0.03 5 0.07 two_pillars_ok).
  - rewrite two_pillars_data. right. left. reflexivity.
  - lra.
  - lra.
Defined.

(** ** Discount factors and the largest maturity *)

Lemma getDiscountFactor_le_1 (c : ZeroCurve R) (t : R) :
  0 <= t -> Forall (fun p => 0 <= snd p) (getCurve c) ->
  getDiscountFactor c t <= 1.
Proof.
  intros Ht Hall. unfold getDiscountFactor.
  rewrite <- exp_0. apply exp_le.
  assert (Hr : 0 <= getZeroRate c t).
  { destruct (getCurve c) as [|p m] eqn:Hm.
    - destruct c as [m']. simpl in Hm. subst m'. unfold getZeroRate. simpl. lra.
    - assert (Hne : getCurve c <> []) by (rewrite Hm; discriminate).
      rewrite <- Hm in Hall. rewrite Forall_forall in Hall.
      destruct (getZeroRate_cases c t Hne)
        as [(p' & Hp & ->) | (l0 & q & p' & l2 & Heq & Hbr & ->)].
      + apply Hall. exact Hp.
      + assert (Hq : 0 <= snd q)
          by (apply Hall; rewrite Heq; apply in_or_app; right; simpl; auto).
        assert (Hp : 0 <= snd p')
          by (apply Hall; rewrite Heq; apply in_or_app; right; simpl; auto).
        apply (interpolation_between 0 (Rmax (snd q) (snd p'))
                 (fst q) (snd q) (fst p') (snd p') t Hbr).
        * split; [exact Hq | apply Rmax_l].
        * split; [exact Hp | apply Rmax_r]. }
  nra.
Qed.

Lemma zero_rate_bounds (c : ZeroCurve R) (t lo hi : R) :
  getCurve c <> [] ->
  Forall (fun p => lo <= snd p <= hi) (getCurve c) ->
  lo <= getZeroRate c t <= hi.
Proof.
  intros Hne Hall. rewrite Forall_forall in Hall.
  destruct (getZeroRate_cases c t Hne)
    as [(p & Hp & ->) | (l0 & q & p & l2 & Heq & Hbr & ->)].
  - apply Hall. exact Hp.
  - apply interpolation_between; [exact Hbr | |]; apply Hall; rewrite Heq;
      apply in_or_app; right; simpl; auto.
Qed.

(** X6.  In exact arithmetic, for [t >= 0]: on a curve with pillars whose
    rates all lie between [lo] and [hi], the discount factor lies between
    those of the two extreme rates, [exp(-hi * t)] and [exp(-lo * t)]; and on
    any curve without a negative rate it is at most 1. *)
Theorem getDiscountFactor_range (c : ZeroCurve R) (t lo hi : R) :
  0 <= t ->
  (getCurve c <> [] ->
   Forall (fun p => lo <= snd p <= hi) (getCurve c) ->
   exp (- hi * t) <= getDiscountFactor c t <= exp (- lo * t)) /\
  (Forall (fun p => 0 <= snd p) (getCurve c) -> getDiscountFactor c t <= 1).
Proof.
  intros Ht. split.
  - intros Hne Hall.
    destruct (zero_rate_bounds c t lo hi Hne Hall) as [Hlo Hhi].
    unfold getDiscountFactor. split; apply exp_le; nra.
  - apply getDiscountFactor_le_1. exact Ht.
Qed.

Lemma getDiscountFactor_range_witness :
  exp (- (0.03) * 2) <= getDiscountFactor two_pillars 2 <= exp (- (0.01) * 2).
Proof.
  refine (proj1 (getDiscountFactor_range two_pillars 2 0.01 0.03 _) _ _).
  - lra.
  - rewrite two_pillars_data. discriminate.
  - rewrite two_pillars_data. repeat constructor; simpl; lra.
Defined.

(** X7.  [getMaxMaturity] is 0.0 on the empty curve.  On a well-formed curve
    with pillars it is the maturity of a pillar, no pillar has a larger one,
    and strictly above it the lookup returns that pillar's rate. *)
Theorem getMaxMaturity_spec (c : ZeroCurve R) :
  (getCurve c = [] -> getMaxMaturity c = 0) /\
  (getCurve c <> [] -> map_ok (getCurve c) ->
   (exists r, In (getMaxMaturity c, r) (getCurve c) /\
              forall t, getMaxMaturity c < t ->
                getZeroRate c t = r /\ getZeroRate_case c t = CaseA) /\
   (forall t r, In (t, r) (getCurve c) -> t <= getMaxMaturity c)).
Proof.
  destruct c as [m]. unfold getMaxMaturity, getCurve. simpl. split.
  - intros ->. reflexivity.
  - intros Hne Hok.
    destruct (split_last m) as [-> | (l & [tn rn] & ->)]; [contradiction|].
    assert (Hlast : map_rbegin (l ++ [(tn, rn)]) = (tn, rn))
      by (unfold map_rbegin; apply last_last).
    assert (Hempty : map_empty (l ++ [(tn, rn)]) = false) by (destruct l; reflexivity).
    rewrite Hempty, Hlast. simpl. split.
    + exists rn. split; [apply in_or_app; right; left; reflexivity|].
      intros t Ht.
      apply (getZeroRate_after {| _curveData := l ++ [(tn, rn)] |} t l (tn, rn) eq_refl).
      apply map_ok_all_below; assumption.
    + intros t r Hin. apply in_app_or in Hin as [Hin | [Heq | []]].
      * apply map_ok_app in Hok as (_ & _ & Hlt).
        specialize (Hlt (t, r) (tn, rn) Hin (or_introl eq_refl)).
        unfold key_lt in Hlt. simpl in Hlt. lra.
      * inversion Heq. lra.
Qed.

Lemma getMaxMaturity_spec_witness : 1 <= getMaxMaturity two_pillars.
Proof.
  refine (proj2 (proj2 (getMaxMaturity_spec two_pillars) _ two_pillars_ok) 1 0.01 _).
  - rewrite two_pillars_data. discriminate.
  - rewrite two_pillars_data. left. reflexivity.
Defined.

(** ** The constructor's sort *)

Lemma insert_quote_perm (q : SwapQuote) (l : list SwapQuote) :
  Permutation (q :: l) (insert_quote q l).
Proof.
  induction l as [|q' l IH]; simpl; [apply Permutation_refl|].
  case_ltb (maturity q') (maturity q); [|apply Permutation_refl].
  apply perm_trans with (q' :: q :: l); [apply perm_swap|].
  apply perm_skip. exact IH.
Qed.

Lemma insert_quote_sorted (q : SwapQuote) (l : list SwapQuote) :
  StronglySorted maturity_le l -> StronglySorted maturity_le (insert_quote q l).
Proof.
  induction l as [|q' l IH]; simpl; intros Hs.
  - repeat constructor.
  - inversion Hs as [|? ? Hs' Hall]; subst.
    case_ltb (maturity q') (maturity q).
    + constructor; [apply IH; exact Hs'|].
      rewrite Forall_forall in *. intros x Hx.
      apply (Permutation_in _ (Permutation_sym (insert_quote_perm q l))) in Hx.
      destruct Hx as [<- | Hx]; [unfold maturity_le; lra | apply Hall; exact Hx].
    + constructor; [exact Hs|].
      constructor; [exact Hlt|].
      rewrite Forall_forall in *. intros x Hx. specialize (Hall x Hx).
      unfold maturity_le in *. lra.
Qed.

Lemma sort_quotes_perm (l : list SwapQuote) : Permutation l (sort_quotes l).
Proof.
  induction l as [|q l IH]; simpl; [constructor|].
  apply perm_trans with (q :: sort_quotes l);
    [apply perm_skip; exact IH | apply insert_quote_perm].
Qed.

Lemma sort_quotes_sorted (l : list SwapQuote) :
  StronglySorted maturity_le (sort_quotes l).
Proof.
  induction l as [|q l IH]; simpl; [constructor|].
  apply insert_quote_sorted. exact IH.
Qed.

(** X8.  The constructor keeps the quotes it is given, each as often as it
    was given, in an order of non-decreasing maturity. *)
Theorem sort_quotes_sorted_perm (quotes : list SwapQuote) :
  Permutation quotes (_quotes (newBootstrapper quotes)) /\
  StronglySorted maturity_le (_quotes (newBootstrapper quotes)) /\
  length (_quotes (newBootstrapper quotes)) = length quotes.
Proof.
  unfold newBootstrapper. simpl.
  split; [apply sort_quotes_perm|]. split; [apply sort_quotes_sorted|].
  symmetry. apply Permutation_length, sort_quotes_perm.
Qed.

Lemma sorted_distinct_strict (l : list SwapQuote) :
  StronglySorted maturity_le l -> NoDup (map maturity l) ->
  StronglySorted maturity_lt l.
Proof.
  induction 1 as [|a l Hs IH Hall]; intros Hnd; [constructor|].
  simpl in Hnd. inversion Hnd as [|? ? Hnin Hnd']; subst.
  constructor; [apply IH; exact Hnd'|].
  rewrite Forall_forall in *. intros x Hx. specialize (Hall x Hx).
  assert (Hne : maturity a <> maturity x).
  { intros Heq. apply Hnin. rewrite Heq. apply in_map. exact Hx. }
  unfold maturity_le, maturity_lt in *. lra.
Qed.

Lemma strict_sorted_perm_eq (l1 l2 : list SwapQuote) :
  StronglySorted maturity_lt l1 -> StronglySorted maturity_lt l2 ->
  Permutation l1 l2 -> l1 = l2.
Proof.
  intros Hs1. revert l2. induction Hs1 as [|a l1 Hs1 IH Hall1]; intros l2 Hs2 Hp.
  - apply Permutation_nil in Hp. subst. reflexivity.
  - destruct l2 as [|b l2].
    + apply Permutation_sym, Permutation_nil in Hp. discriminate.
    + inversion Hs2 as [|? ? Hs2' Hall2]; subst.
      assert (Hab : a = b).
      { assert (Ha : In a (b :: l2)) by (apply (Permutation_in _ Hp); left; reflexivity).
        assert (Hb : In b (a :: l1))
          by (apply (Permutation_in _ (Permutation_sym Hp)); left; reflexivity).
        destruct Ha as [Ha | Ha]; [symmetry; exact Ha|].
        destruct Hb as [Hb | Hb]; [exact Hb|].
        rewrite Forall_forall in Hall1, Hall2.
        specialize (Hall1 b Hb). specialize (Hall2 a Ha).
        unfold maturity_lt in *. lra. }
      subst b. f_equal. apply IH; [exact Hs2'|].
      apply (Permutation_cons_inv Hp).
Qed.

(** X9.  With quotes of pairwise different maturities the order in which
    they are given does not matter: the bootstrapper built from a
    rearrangement is the same, and so is the calibrated curve. *)
Theorem calibrate_order_independent
    (quotes quotes' : list SwapQuote) (seed : ZeroCurve R) :
  NoDup (map maturity quotes) -> Permutation quotes quotes' ->
  newBootstrapper quotes = newBootstrapper quotes' /\
  calibrate (newBootstrapper quotes) seed = calibrate (newBootstrapper quotes') seed.
Proof.
  intros Hnd Hp.
  assert (Heq : newBootstrapper quotes = newBootstrapper quotes').
  { unfold newBootstrapper. f_equal.
    pose proof (sort_quotes_perm quotes) as Hp1.
    pose proof (sort_quotes_sorted quotes) as Hs1.
    pose proof (sort_quotes_perm quotes') as Hp2.
    pose proof (sort_quotes_sorted quotes') as Hs2.
    apply strict_sorted_perm_eq.
    - apply sorted_distinct_strict; [exact Hs1|].
      apply (Permutation_NoDup (Permutation_map maturity Hp1)). exact Hnd.
    - apply sorted_distinct_strict; [exact Hs2|].
      apply (Permutation_NoDup (Permutation_map maturity (perm_trans Hp Hp2))).
      exact Hnd.
    - apply perm_trans with quotes; [apply Permutation_sym; exact Hp1|].
      apply perm_trans with quotes'; assumption. }
  split; [exact Heq | rewrite Heq; reflexivity].
Qed.

Lemma calibrate_order_independent_witness :
  calibrate (newBootstrapper [ {| maturity := 2; rate := 0.019 |};
                               {| maturity := 1; rate := 0.015 |} ]) emptyCurve
  = calibrate (newBootstrapper [ {| maturity := 1; rate := 0.015 |};
                                 {| maturity := 2; rate := 0.019 |} ]) emptyCurve.
Proof.
  refine (proj2 (calibrate_order_independent _ _ emptyCurve _ (perm_swap _ _ _))).
  simpl. constructor.
  - intros [H | []]. lra.
  - constructor; [intros [] | constructor].
Defined.

(** ** The pillars after calibration *)

Lemma map_ok_NoDup (m : dmap R) : map_ok m -> NoDup (map fst m).
Proof.
  induction 1 as [|p m Hs IH Hall]; simpl; constructor; [|exact IH].
  intros Hin. apply in_map_iff in Hin as (x & Hx & Hin).
  rewrite Forall_forall in Hall. specialize (Hall x Hin).
  unfold key_lt in Hall. lra.
Qed.

(** X10.  Whatever the order of the quotes, the calibrated curve lists its
    pillars by strictly increasing maturity, and no maturity twice. *)
Theorem calibrate_sorted (quotes : list SwapQuote) (seed : ZeroCurve R) :
  map_ok (getCurve seed) ->
  StronglySorted (fun p q => fst p < fst q)
    (getCurve (calibrate (newBootstrapper quotes) seed)) /\
  NoDup (map fst (getCurve (calibrate (newBootstrapper quotes) seed))).
Proof.
  intros Hok.
  assert (Hres : map_ok (getCurve (calibrate (newBootstrapper quotes) seed)))
    by (apply calibrate_ok; exact Hok).
  split; [exact Hres | apply map_ok_NoDup; exact Hres].
Qed.

Lemma calibrate_sorted_witness :
  NoDup (map fst (getCurve (calibrate (newBootstrapper
     [ {| maturity := 2; rate := 0.019 |}; {| maturity := 1; rate := 0.015 |} ])
     emptyCurve))).
Proof.
  exact (proj2 (calibrate_sorted _ emptyCurve (SSorted_nil _))).
Defined.

(** X11.  The maturities of the calibrated curve are those of the seed and
    those of the quotes, and nothing else; the curve has at most one pillar
    more per quote. *)
Theorem calibrate_pillar_set (b : Bootstrapper) (seed : ZeroCurve R) (t : R) :
  map_ok (getCurve seed) ->
  ((exists r, In (t, r) (getCurve (calibrate b seed))) <->
   (exists r, In (t, r) (getCurve seed)) \/
   (exists q, In q (_quotes b) /\ maturity q = t)) /\
  (length (getCurve (calibrate b seed))
   <= length (getCurve seed) + length (_quotes b))%nat.
Proof.
  intros Hok.
  assert (Hres : map_ok (getCurve (calibrate b seed)))
    by (apply calibrate_ok; exact Hok).
  split.
  - split.
    + intros [r Hin]. apply calibrate_new in Hin as [Hold | (q & Hq & Hfst & _)].
      * left. exists r. exact Hold.
      * right. exists q. split; [exact Hq | symmetry; exact Hfst].
    + intros [[r Hin] | (q & Hq & <-)].
      * exists r. apply calibrate_keeps. exact Hin.
      * apply (map_count_In _ _ Hres). apply calibrate_has_quotes. exact Hq.
  - unfold calibrate. generalize (_quotes b) as qs. clear Hres.
    intros qs. revert seed Hok. induction qs as [|q qs IH]; intros seed Hok; simpl.
    + lia.
    + specialize (IH (calibrate_step seed q) (calibrate_step_ok seed q Hok)).
      destruct (calibrate_step_cases seed q) as [[_ Heq] | [_ Heq]];
        rewrite Heq in *.
      * lia.
      * unfold addNode, getCurve in *. simpl in *.
        rewrite map_assign_length in IH.
        destruct (Nat.eqb (map_count (_curveData seed) (maturity q)) 0); lia.
Qed.

Lemma calibrate_pillar_set_witness :
  exists r, In (1.5, r) (getCurve (calibrate {| _quotes := [steep_quote] |} emptyCurve)).
Proof.
  apply (proj1 (calibrate_pillar_set {| _quotes := [steep_quote] |} emptyCurve 1.5
                  (SSorted_nil _))).
  right. exists steep_quote. split; [left; reflexivity | reflexivity].
Defined.

(** X12.  A quote whose maturity is a pillar of the seed, or the maturity of
    an earlier quote, has no effect whatever its rate: the calibrated curve is
    the one obtained without it. *)
Theorem calibrate_duplicate_ignored
    (seed : ZeroCurve R) (qs1 qs2 : list SwapQuote) (q' : SwapQuote) :
  has_pillar seed (maturity q') \/
  (exists q, In q qs1 /\ maturity q = maturity q') ->
  calibrate {| _quotes := qs1 ++ q' :: qs2 |} seed
  = calibrate {| _quotes := qs1 ++ qs2 |} seed.
Proof.
  intros Hdup. unfold calibrate. simpl _quotes. rewrite !fold_left_app. simpl.
  rewrite calibrate_step_skip; [reflexivity|].
  destruct Hdup as [Hseed | (q & Hq & Heq)].
  - apply calibrate_has_mono. exact Hseed.
  - rewrite <- Heq. apply calibrate_has_quotes. exact Hq.
Qed.

Lemma calibrate_duplicate_ignored_witness :
  calibrate {| _quotes := [steep_quote; {| maturity := 1.5; rate := 0.02 |}] |} emptyCurve
  = calibrate {| _quotes := [steep_quote] |} emptyCurve.
Proof.
  apply (calibrate_duplicate_ignored emptyCurve [steep_quote] []
           {| maturity := 1.5; rate := 0.02 |}).
  right. exists steep_quote. split; [left; reflexivity | reflexivity].
Defined.

(** ** The last period and the coupon dates *)

Lemma last_period_bounds (T : R) : 0 <= last_period T < FIXED_TAU.
Proof.
  unfold last_period, floor, FIXED_TAU.
  pose proof (Zfloor_bound (2.0 * T)) as [Hlo Hhi]. lra.
Qed.

Lemma last_period_zero (T : R) : last_period T = 0 <-> on_grid T.
Proof.
  split.
  - intros Hz. exists (Zfloor (2.0 * T)).
    unfold last_period, floor, FIXED_TAU in *. lra.
  - intros [k ->]. apply last_period_on_grid.
Qed.

Lemma last_period_between (T : R) (k : Z) :
  IZR k * FIXED_TAU <= T < IZR (k + 1) * FIXED_TAU ->
  last_period T = T - IZR k * FIXED_TAU.
Proof.
  intros [Hlo Hhi]. unfold last_period, floor, FIXED_TAU in *.
  rewrite plus_IZR in Hhi.
  rewrite (Zfloor_eq k (2.0 * T)) by lra. lra.
Qed.

(** X16.  The last period, as the bootstrapper and the pricer both compute
    it, is at least 0 and shorter than one period; it is 0 exactly when the
    maturity is a multiple of the period, and otherwise the distance to the
    multiple below. *)
Theorem last_period_range (T : R) :
  0 <= last_period T < FIXED_TAU /\
  (last_period T = 0 <-> on_grid T) /\
  (forall k : Z, IZR k * FIXED_TAU <= T < IZR (k + 1) * FIXED_TAU ->
     last_period T = T - IZR k * FIXED_TAU).
Proof.
  split; [apply last_period_bounds|]. split; [apply last_period_zero|].
  apply last_period_between.
Qed.

Lemma full_periods_zero (T : R) : full_periods T = 0%nat <-> T <= FIXED_TAU.
Proof.
  pose proof (full_periods_guard T 1 (le_n 1)) as Hg. simpl in Hg.
  split.
  - intros Hz. destruct (Rle_dec T FIXED_TAU) as [Hle | Hgt]; [exact Hle|].
    assert (Hlt : 1 * FIXED_TAU < T) by lra. apply Hg in Hlt. lia.
  - intros Hle. destruct (full_periods T) as [|n] eqn:Hn; [reflexivity|].
    assert (Hlt : 1 * FIXED_TAU < T) by (apply Hg; lia). lra.
Qed.

Lemma full_periods_off_grid (T : R) :
  ~ on_grid T -> full_periods T = Z.to_nat (Zfloor (2 * T)).
Proof.
  intros Hoff. unfold full_periods. f_equal.
  pose proof (Zfloor_bound (2 * T)) as [Hlo Hhi].
  assert (Hne : IZR (Zfloor (2 * T)) <> 2 * T).
  { intros Heq. apply Hoff. exists (Zfloor (2 * T)). unfold FIXED_TAU. lra. }
  rewrite (Zfloor_eq (- Zfloor (2 * T) - 1) (- (2 * T))).
  - lia.
  - rewrite minus_IZR, opp_IZR. lra.
Qed.

Lemma coupon_dates_nil (T : R) : coupon_dates T = [] <-> T <= FIXED_TAU.
Proof.
  rewrite <- full_periods_zero. unfold coupon_dates.
  destruct (full_periods T); simpl; split; intros; try discriminate; reflexivity.
Qed.

Lemma accrual_total (T : R) :
  0 < T ->
  INR (full_periods T) * FIXED_TAU + last_period T
  = if Rltb 0 (last_period T) then T else T - FIXED_TAU.
Proof.
  intros HT. case_ltb 0 (last_period T).
  - assert (Hoff : ~ on_grid T).
    { intros Hon. apply last_period_zero in Hon. lra. }
    rewrite (full_periods_off_grid T Hoff).
    pose proof (Zfloor_bound (2 * T)) as [Hlo Hhi].
    assert (Hk : (0 <= Zfloor (2 * T))%Z) by (apply Zfloor_lub; simpl; lra).
    rewrite INR_IZR_INZ, Z2Nat.id by exact Hk.
    unfold last_period, floor, FIXED_TAU.
    replace (2.0 * T) with (2 * T) by lra. lra.
  - assert (Hz : last_period T = 0) by (pose proof (last_period_bounds T); lra).
    pose proof Hz as Hon. apply last_period_zero in Hon as [k ->].
    rewrite full_periods_on_grid, Hz.
    assert (Hk : (1 <= k)%Z).
    { apply Z.lt_pred_le. apply lt_IZR. unfold FIXED_TAU in HT. simpl. lra. }
    rewrite INR_IZR_INZ, Z2Nat.id by lia. rewrite minus_IZR. unfold FIXED_TAU. lra.
Qed.

(** ** The two coupon loops, and the annuity *)

Lemma Rsum_nonneg (f : nat -> R) (l : list nat) :
  (forall j, In j l -> 0 <= f j) -> 0 <= Rsum f l.
Proof.
  induction l as [|a l IH]; simpl; intros Hf; [lra|].
  pose proof (Hf a (or_introl eq_refl)). pose proof (IH (fun j Hj => Hf j (or_intror Hj))).
  lra.
Qed.

Lemma Rsum_pos (f : nat -> R) (l : list nat) :
  l <> [] -> (forall j, In j l -> 0 < f j) -> 0 < Rsum f l.
Proof.
  destruct l as [|a l]; [contradiction|]. intros _ Hf. simpl.
  pose proof (Hf a (or_introl eq_refl)).
  pose proof (Rsum_nonneg f l (fun j Hj => Rlt_le _ _ (Hf j (or_intror Hj)))).
  lra.
Qed.

Lemma coupon_sum_annuity_eq (c : ZeroCurve R) (T S : R) :
  sumDiscountedCoupons c T S
  = S * (annuity c T - last_period T * getDiscountFactor c T).
Proof.
  rewrite sumDiscountedCoupons_eq, annuity_eq.
  rewrite (Rsum_ext _ (fun j => S * (FIXED_TAU * getDiscountFactor c (FIXED_TAU * INR j))))
    by (intros j _; ring).
  rewrite Rsum_scale. ring.
Qed.


Lemma annuity_nonneg (c : ZeroCurve R) (T : R) : 0 <= annuity c T.
Proof.
  rewrite annuity_eq.
  pose proof (last_period_bounds T) as [Hl _].
  pose proof (exp_pos (- getZeroRate c T * T)) as Hdf.
  fold (getDiscountFactor c T) in Hdf.
  assert (Hs : 0 <= Rsum (fun j => FIXED_TAU * getDiscountFactor c (FIXED_TAU * INR j))
                     (coupon_dates T)).
  { apply Rsum_nonneg. intros j _.
    pose proof (exp_pos (- getZeroRate c (FIXED_TAU * INR j) * (FIXED_TAU * INR j))) as H.
    fold (getDiscountFactor c (FIXED_TAU * INR j)) in H. unfold FIXED_TAU at 1. nra. }
  nra.
Qed.

Lemma annuity_zero (c : ZeroCurve R) (T : R) :
  annuity c T = 0 <-> T <= FIXED_TAU /\ on_grid T.
Proof.
  rewrite annuity_eq.
  pose proof (last_period_bounds T) as [Hl _].
  pose proof (exp_pos (- getZeroRate c T * T)) as Hdf.
  fold (getDiscountFactor c T) in Hdf.
  set (f := fun j => FIXED_TAU * getDiscountFactor c (FIXED_TAU * INR j)).
  assert (Hf : forall j, 0 < f j).
  { intros j. unfold f.
    pose proof (exp_pos (- getZeroRate c (FIXED_TAU * INR j) * (FIXED_TAU * INR j))) as H.
    fold (getDiscountFactor c (FIXED_TAU * INR j)) in H. unfold FIXED_TAU at 1. nra. }
  assert (Hprod : 0 <= last_period T * getDiscountFactor c T) by nra.
  split.
  - intros Hz.
    destruct (coupon_dates T) as [|a l] eqn:Hd.
    + split; [apply coupon_dates_nil; exact Hd|].
      apply last_period_zero. simpl in Hz. nra.
    + assert (Hpos : 0 < Rsum f (a :: l))
        by (apply Rsum_pos; [discriminate | intros j _; apply Hf]).
      lra.
  - intros [Hle Hon]. apply coupon_dates_nil in Hle. rewrite Hle.
    apply last_period_zero in Hon. rewrite Hon. simpl. lra.
Qed.

Lemma annuity_first_coupon (c : ZeroCurve R) (T : R) :
  FIXED_TAU < T ->
  FIXED_TAU * getDiscountFactor c FIXED_TAU <= annuity c T.
Proof.
  intros HT. rewrite annuity_eq.
  pose proof (last_period_bounds T) as [Hl _].
  pose proof (exp_pos (- getZeroRate c T * T)) as Hdf.
  fold (getDiscountFactor c T) in Hdf.
  assert (Hn : full_periods T <> 0%nat).
  { intros Hz. apply full_periods_zero in Hz. lra. }
  unfold coupon_dates. destruct (full_periods T) as [|n]; [contradiction|].
  set (f := fun j => FIXED_TAU * getDiscountFactor c (FIXED_TAU * INR j)).
  change (Rsum f (seq 1 (S n))) with (f 1%nat + Rsum f (seq 2 n)).
  assert (Hf1 : f 1%nat = FIXED_TAU * getDiscountFactor c FIXED_TAU).
  { unfold f. f_equal. f_equal. simpl. ring. }
  assert (Hs : 0 <= Rsum f (seq 2 n)).
  { apply Rsum_nonneg. intros j _. unfold f.
    pose proof (exp_pos (- getZeroRate c (FIXED_TAU * INR j) * (FIXED_TAU * INR j))) as H.
    fold (getDiscountFactor c (FIXED_TAU * INR j)) in H. unfold FIXED_TAU at 1. nra. }
  rewrite Hf1. nra.
Qed.

(** X18.  In exact arithmetic the annuity is never negative, and for a
    maturity above one period it is at least the first coupon,
    [0.5 * DF(0.5)].  For a maturity that is a multiple of the period and at
    most one period the annuity is 0: there the fair rate is the sentinel 0
    and the price of a swap is [1 - DF(T)] whatever its fixed rate. *)
Theorem annuity_sign (c : ZeroCurve R) (T : R) :
  0 <= annuity c T /\
  (FIXED_TAU < T ->
   FIXED_TAU * getDiscountFactor c FIXED_TAU <= annuity c T) /\
  (T <= FIXED_TAU -> on_grid T ->
   annuity c T = 0 /\
   calculateFaireRate c T = 0 /\
   forall x, priceSwap c T x = 1 - getDiscountFactor c T).
Proof.
  split; [apply annuity_nonneg|]. split; [apply annuity_first_coupon|].
  intros Hle Hon.
  assert (Hz : annuity c T = 0) by (apply annuity_zero; split; assumption).
  split; [exact Hz|]. split.
  - unfold calculateFaireRate. cbv zeta. rewrite Hz.
    rewrite Rltb_lt by lra. reflexivity.
  - intros x. rewrite priceSwap_eq, Hz. lra.
Qed.

Lemma zero_rates_discount (c : ZeroCurve R) (t : R) :
  Forall (fun p => snd p = 0) (getCurve c) -> getDiscountFactor c t = 1.
Proof.
  intros Hall. unfold getDiscountFactor.
  assert (Hr : getZeroRate c t = 0).
  { destruct (getCurve c) as [|p m] eqn:Hm.
    - destruct c as [m']. simpl in Hm. subst m'. reflexivity.
    - assert (Hne : getCurve c <> []) by (rewrite Hm; discriminate).
      rewrite <- Hm in Hall.
      assert (Hin : Forall (fun p => 0 <= snd p <= 0) (getCurve c)).
      { rewrite Forall_forall in *. intros x Hx. rewrite (Hall x Hx). lra. }
      rewrite Forall_forall in Hin.
      destruct (getZeroRate_cases c t Hne)
        as [(p' & Hp & Heq) | (l0 & q & p' & l2 & Heq & Hbr & Hval)].
      + rewrite Heq. rewrite Forall_forall in Hall. apply Hall. exact Hp.
      + assert (Hq : 0 <= snd q <= 0)
          by (apply Hin; rewrite Heq; apply in_or_app; right; simpl; auto).
        assert (Hp : 0 <= snd p' <= 0)
          by (apply Hin; rewrite Heq; apply in_or_app; right; simpl; auto).
        pose proof (interpolation_between 0 0 (fst q) (snd q) (fst p') (snd p') t
                      Hbr Hq Hp) as Hb.
        rewrite Hval. lra. }
  rewrite Hr. replace (- 0 * t) with 0 by ring. apply exp_0.
Qed.

Lemma annuity_zero_rates (c : ZeroCurve R) (T : R) :
  Forall (fun p => snd p = 0) (getCurve c) ->
  annuity c T = INR (full_periods T) * FIXED_TAU + last_period T.
Proof.
  intros Hall. rewrite annuity_eq, (zero_rates_discount c T Hall).
  rewrite (Rsum_const FIXED_TAU).
  - unfold coupon_dates. rewrite length_seq. lra.
  - intros j _. rewrite (zero_rates_discount c _ Hall). lra.
Qed.

(** X19.  On a curve whose rates are all 0 (the empty curve is one), where
    every discount factor is 1, the annuity of a positive maturity [T] is [T]
    when [T] is not a multiple of the period and [T - 0.5] when it is: on the
    grid the periods counted stop one period short of the maturity. *)
Theorem annuity_flat_accrual (c : ZeroCurve R) (T : R) :
  Forall (fun p => snd p = 0) (getCurve c) -> 0 < T ->
  (on_grid T -> annuity c T = T - FIXED_TAU) /\
  (~ on_grid T -> annuity c T = T).
Proof.
  intros Hall HT. rewrite (annuity_zero_rates c T Hall), (accrual_total T HT).
  pose proof (last_period_bounds T) as [Hlo _].
  split; intros Hg.
  - apply last_period_zero in Hg. rewrite Rltb_ge by lra. reflexivity.
  - rewrite Rltb_lt; [reflexivity|].
    destruct (Req_dec (last_period T) 0) as [Hz | Hnz]; [|lra].
    apply last_period_zero in Hz. contradiction.
Qed.

Lemma annuity_flat_accrual_witness : annuity emptyCurve 0.75 = 0.75.
Proof.
  refine (proj2 (annuity_flat_accrual emptyCurve 0.75 (Forall_nil _) _) _); [lra|].
  intros Hon. apply last_period_zero in Hon.
  assert (Hl : last_period 0.75 = 0.75 - IZR 1 * FIXED_TAU).
  { apply last_period_between. unfold FIXED_TAU. simpl. lra. }
  unfold FIXED_TAU in Hl. lra.
Defined.

(** ** Bootstrapping steps *)

Lemma step_df_eq (c : ZeroCurve R) (T S : R) :
  step_df c T S = (1 - sumDiscountedCoupons c T S) / (1 + last_period T * S).
Proof. unfold step_df. cbv zeta. replace 1.0 with 1 by lra. reflexivity. Qed.

Lemma sumDiscountedCoupons_nonneg (c : ZeroCurve R) (T S : R) :
  0 <= S -> 0 <= sumDiscountedCoupons c T S.
Proof.
  intros HS. rewrite coupon_sum_annuity_eq.
  rewrite annuity_eq.
  replace (Rsum (fun j => FIXED_TAU * getDiscountFactor c (FIXED_TAU * INR j))
             (coupon_dates T)
           + last_period T * getDiscountFactor c T
           - last_period T * getDiscountFactor c T)
    with (Rsum (fun j => FIXED_TAU * getDiscountFactor c (FIXED_TAU * INR j))
            (coupon_dates T)) by ring.
  apply Rmult_le_pos; [exact HS|].
  apply Rsum_nonneg. intros j _.
  pose proof (exp_pos (- getZeroRate c (FIXED_TAU * INR j) * (FIXED_TAU * INR j))) as H.
  fold (getDiscountFactor c (FIXED_TAU * INR j)) in H. unfold FIXED_TAU at 1. nra.
Qed.

Lemma step_df_le_1 (c : ZeroCurve R) (T S : R) : 0 <= S -> step_df c T S <= 1.
Proof.
  intros HS. rewrite step_df_eq.
  pose proof (sumDiscountedCoupons_nonneg c T S HS) as Hsum.
  pose proof (last_period_bounds T) as [Hl _].
  assert (Hden : 1 <= 1 + last_period T * S) by nra.
  apply (Rmult_le_reg_r (1 + last_period T * S)); [lra|].
  unfold Rdiv. rewrite Rmult_assoc, Rinv_l by lra. nra.
Qed.

Lemma step_rate_nonneg (df_n mat : R) :
  df_n <= 1 -> 0 < mat -> 0 <= step_rate df_n mat.
Proof.
  intros Hdf Hmat. unfold step_rate. case_ltb 0 df_n; [|lra].
  pose proof (ln_upper df_n Hlt) as Hln.
  apply Rmult_le_pos; [lra|]. left. apply Rinv_0_lt_compat. exact Hmat.
Qed.

Lemma calibrate_step_nonneg (c : ZeroCurve R) (q : SwapQuote) :
  0 <= rate q -> 0 < maturity q ->
  Forall (fun p => 0 <= snd p) (getCurve c) ->
  Forall (fun p => 0 <= snd p) (getCurve (calibrate_step c q)).
Proof.
  intros HS HT Hall. rewrite Forall_forall in *. intros p Hp.
  apply calibrate_step_new in Hp as [Hold | [_ ->]]; [apply Hall; exact Hold|].
  simpl. apply step_rate_nonneg; [apply step_df_le_1; exact HS | exact HT].
Qed.

(** X13.  When no quote has a negative rate and every quote has a positive
    maturity, calibration keeps the zero rates non-negative: if no pillar of
    the seed has a negative rate, none of the result has. *)
Theorem calibrate_nonnegative_rates (b : Bootstrapper) (seed : ZeroCurve R) :
  Forall (fun q => 0 <= rate q /\ 0 < maturity q) (_quotes b) ->
  Forall (fun p => 0 <= snd p) (getCurve seed) ->
  Forall (fun p => 0 <= snd p) (getCurve (calibrate b seed)).
Proof.
  intros Hq. unfold calibrate. revert seed.
  induction Hq as [|q qs [HS HT] _ IH]; intros seed Hseed; simpl; [exact Hseed|].
  apply IH. apply calibrate_step_nonneg; assumption.
Qed.

Lemma calibrate_nonnegative_rates_witness :
  Forall (fun p => 0 <= snd p)
    (getCurve (calibrate {| _quotes := [steep_quote] |} emptyCurve)).
Proof.
  refine (calibrate_nonnegative_rates {| _quotes := [steep_quote] |}
            emptyCurve _ _).
  - repeat constructor; simpl; lra.
  - constructor.
Defined.

Lemma sumDiscountedCoupons_first_period (c : ZeroCurve R) (T S : R) :
  T <= FIXED_TAU -> sumDiscountedCoupons c T S = 0.
Proof.
  intros HT. rewrite sumDiscountedCoupons_eq.
  apply coupon_dates_nil in HT. rewrite HT. reflexivity.
Qed.

(** X14.  For a maturity within the first period no coupon is summed and
    the curve is not read: below one period the step computes the deposit
    formula [1 / (1 + T * S)], and at exactly one period it computes 1
    whatever the rate. *)
Theorem step_df_first_period (c : ZeroCurve R) (T S : R) :
  0 <= T <= FIXED_TAU ->
  sumDiscountedCoupons c T S = 0 /\
  (T < FIXED_TAU -> step_df c T S = 1 / (1 + T * S)) /\
  (T = FIXED_TAU -> step_df c T S = 1).
Proof.
  intros [Hlo Hhi].
  assert (Hsum : sumDiscountedCoupons c T S = 0)
    by (apply sumDiscountedCoupons_first_period; exact Hhi).
  split; [exact Hsum|]. split.
  - intros Hlt. rewrite step_df_eq, Hsum.
    rewrite (last_period_between T 0) by (simpl; unfold FIXED_TAU in *; lra).
    simpl. replace (T - 0 * FIXED_TAU) with T by ring.
    replace (1 - 0) with 1 by ring. reflexivity.
  - intros ->. rewrite step_df_eq, Hsum.
    assert (Hl : last_period FIXED_TAU = 0).
    { rewrite <- (last_period_on_grid 1). f_equal. simpl. ring. }
    rewrite Hl. replace (1 + 0 * S) with 1 by ring. lra.
Qed.

Lemma step_df_first_period_witness :
  step_df emptyCurve 0.25 0.04 = 1 / (1 + 0.25 * 0.04).
Proof.
  refine (proj1 (proj2 (step_df_first_period emptyCurve 0.25 0.04 _)) _);
    unfold FIXED_TAU; lra.
Defined.



(** ** Prices *)



Lemma calibrate_lookup_before (qs : list SwapQuote) (c : ZeroCurve R) (t k0 v0 : R) :
  map_ok (getCurve c) -> In (k0, v0) (getCurve c) -> t <= k0 ->
  Forall (fun q => k0 < maturity q) qs ->
  getZeroRate (fold_left calibrate_step qs c) t = getZeroRate c t.
Proof.
  intros Hok Hin Ht Hqs.
  destruct (lookup_decomp (getCurve c) t k0 v0 Hok Hin Ht)
    as (l0 & p & rest & Heq & Hlow & Hp & Hpk).
  assert (Heq' : getCurve c = (l0 ++ [p]) ++ rest)
    by (rewrite <- app_assoc; exact Heq).
  destruct (calibrate_prefix qs c (l0 ++ [p]) rest Heq') as [rest' Hfin].
  - rewrite Forall_forall in *. intros q Hq. specialize (Hqs q Hq).
    apply Forall_forall. intros x Hx. apply in_app_or in Hx as [Hx | [<- | []]].
    + specialize (Hlow x Hx). unfold below in *. lra.
    + unfold below. lra.
  - rewrite <- app_assoc in Hfin. simpl in Hfin.
    apply (lookup_prefix _ c t l0 rest' rest p Hfin Heq Hlow Hp).
Qed.

(** X21.  Calibrating quotes that all mature after a pillar of the curve
    changes no discount factor at or before that pillar, and so no annuity
    and no swap price for a maturity at or before it. *)
Theorem priceSwap_calibrate_longer
    (b : Bootstrapper) (c : ZeroCurve R) (T x k0 v0 : R) :
  map_ok (getCurve c) -> In (k0, v0) (getCurve c) -> T <= k0 ->
  Forall (fun q => k0 < maturity q) (_quotes b) ->
  (forall t, t <= k0 ->
     getDiscountFactor (calibrate b c) t = getDiscountFactor c t) /\
  annuity (calibrate b c) T = annuity c T /\
  priceSwap (calibrate b c) T x = priceSwap c T x.
Proof.
  intros Hok Hin HT Hqs.
  assert (Hdf : forall t, t <= k0 ->
            getDiscountFactor (calibrate b c) t = getDiscountFactor c t).
  { intros t Ht. unfold getDiscountFactor, calibrate.
    rewrite (calibrate_lookup_before (_quotes b) c t k0 v0 Hok Hin Ht Hqs).
    reflexivity. }
  assert (Hann : annuity (calibrate b c) T = annuity c T).
  { rewrite !annuity_eq. rewrite (Hdf T HT). f_equal.
    apply Rsum_ext. intros j Hj. apply coupon_dates_spec in Hj as [_ Hj].
    rewrite Hdf; [reflexivity|]. rewrite Rmult_comm. lra. }
  split; [exact Hdf|]. split; [exact Hann|].
  rewrite !priceSwap_eq, Hann, (Hdf T HT). reflexivity.
Qed.

Lemma priceSwap_calibrate_longer_witness :
  priceSwap (calibrate {| _quotes := [ {| maturity := 5; rate := 0.02 |} ] |}
               two_pillars) 2 0.02
  = priceSwap two_pillars 2 0.02.
Proof.
  refine (proj2 (proj2 (priceSwap_calibrate_longer
            {| _quotes := [ {| maturity := 5; rate := 0.02 |} ] |}
            two_pillars 2 0.02 3 0.03 two_pillars_ok _ _ _))).
  - rewrite two_pillars_data. right. left. reflexivity.
  - lra.
  - repeat constructor. simpl. lra.
Defined.
